(** * The resilient remote-execution client of aws-k8s-tester

    A shallow embedding of [internal/ssh/ssh.go]: the [ssh] client with its
    [Connect], [Close], [Run], [Send] and [Download] methods, and the retry
    ledger [sh.retries] they share.

    The client talks to the outside world (the key file, the network, the
    remote shell, the [scp] executable, the clock).  Every such interaction
    is answered by an oracle of a [World]; an oracle sees the whole history
    of the run so far (the [trace]), so a world may answer differently each
    time it is asked.  Every interaction is also recorded in the trace, which
    is what the theorems about reconnects, sleeps and sessions talk about. *)

From Stdlib Require Import ZArith String List Bool Lia.
From stdpp Require Import base option gmap strings.

Local Open Scope Z_scope.

(** ** Data *)

(** Go's [int] on the 64-bit targets the tester is built for: arithmetic
    wraps around modulo [2^64]. *)
Definition int_wrap (z : Z) : Z := (z + 2 ^ 63) mod 2 ^ 64 - 2 ^ 63.

(** [time.Duration] counts nanoseconds. *)
Definition Second : Z := 1000000000.

(** Error values.  [Stopped], [ReadKeyFailed] and [ParseKeyFailed] are made
    by [Connect] itself; [DeadlineExceeded] and [Canceled] are the two values
    of [ctx.Err()]; [OpError] is a [*net.OpError] ([refused] tells whether its
    text contains ECONNREFUSED); [Other] is any other error of a library. *)
Inductive error : Type :=
| Stopped
| ReadKeyFailed (cause : string)
| ParseKeyFailed (cause : string)
| OpError (refused : bool) (msg : string)
| DeadlineExceeded
| Canceled
| Other (msg : string).

(** [Config]; the logger is left out, and the map [Envs] is kept as the list
    of its entries in the order [range] visits them. *)
Record Config : Type := {
  KeyPath : string;
  PublicIP : string;
  PublicDNSName : string;
  UserName : string;
  Envs : list (string * string)
}.

(** [Op], the options of one call after [ret.applyOpts(opts)]. *)
Record Op : Type := {
  verbose : bool;
  retries : Z;
  retryInterval : Z;
  timeout : Z;
  envs : list (string * string)
}.

(** The value [Run], [Send] and [Download] start from before the caller's
    options are applied. *)
Definition default_op : Op :=
  {| verbose := true; retries := 0; retryInterval := 0; timeout := 0; envs := [] |}.

(** The [ssh] struct.  A lifetime context, a connection and a client handle
    are known by a number; [None] is Go's nil.  [sh_cli] holds the number of
    the connection the handle was built on. *)
Record ssh : Type := {
  sh_cfg : Config;
  sh_key : option string;
  sh_signer : option string;
  sh_ctx : option nat;
  sh_cancel : option nat;
  sh_conn : option nat;
  sh_cli : option nat;
  sh_retries : gmap string Z
}.

(** ** Events and worlds *)

(** The context of one call, derived from the lifetime context [parent]. *)
Inductive Context : Type :=
| WithCancel (parent : nat)
| WithTimeout (parent : nat) (d : Z).

Inductive Event : Type :=
| EvNewLifetime (id : nat)
| EvReadFile (path : string)
| EvParseKey
| EvInfo (msg : string)
| EvWarn (msg : string)
| EvDial (addr : string) (limit : Z) (res : option error)
| EvSleep (d : Z)
| EvHandshake (conn : nat) (res : option error)
| EvStat (path : string)
| EvCancel (id : nat)
| EvConnClose (conn : nat)
| EvNewSession (cli : nat)
| EvSetenv (k v : string)
| EvContext (c : Context)
| EvExec (cmd : string)
| EvBlocked (d : Z)
| EvSessionClose
| EvCtxCancel
| EvAwaitTask
| EvLookPath (name : string)
| EvChmod (path : string)
| EvScp (args : list string).

(** What the world says about one command started on a session or one run of
    the external tool: after how long it completes by itself ([None]: never),
    with which output and error; after how long the client's lifetime is
    cancelled from outside ([None]: not while the call is in flight); which
    branch [select] takes when both channels are ready at once; and, for the
    external tool, what it returns when it is killed. *)
Record Reply : Type := {
  task_after : option Z;
  task_out : option string;
  task_err : option error;
  life_after : option Z;
  tie_ctx_first : bool;
  killed_out : option string;
  killed_err : error
}.

Record World : Type := {
  read_file : list Event -> string -> string + string;
  parse_private_key : list Event -> string -> option string;
  lifetime_done : list Event -> nat -> bool;
  dial_context : list Event -> string -> option error;
  new_client_conn : list Event -> nat -> option error;
  os_stat : list Event -> string -> bool;
  new_session : list Event -> nat -> option error;
  session_setenv : list Event -> string -> string -> option error;
  combined_output : list Event -> string -> Reply;
  look_path : list Event -> string -> string + error;
  os_chmod : list Event -> string -> option error;
  scp_combined_output : list Event -> list string -> Reply
}.

(** The client together with the history of its run (most recent event
    first). *)
Record State : Type := {
  sh : ssh;
  trace : list Event
}.

(** The outcome of a method call: it returns, it panics, it blocks for ever,
    or the model ran out of fuel before the call ended. *)
Inductive Res (A : Type) : Type :=
| Ret (a : A) (s : State)
| Panic (s : State)
| Hang (s : State)
| OutOfFuel.
Arguments Ret {A} a s.
Arguments Panic {A} s.
Arguments Hang {A} s.
Arguments OutOfFuel {A}.

(** ** State updates *)

Definition emit (e : Event) (s : State) : State :=
  {| sh := sh s; trace := e :: trace s |}.

Definition emits (es : list Event) (s : State) : State :=
  {| sh := sh s; trace := es ++ trace s |}.

Definition upd (f : ssh -> ssh) (s : State) : State :=
  {| sh := f (sh s); trace := trace s |}.

Definition set_lifetime (id : nat) (h : ssh) : ssh :=
  {| sh_cfg := sh_cfg h; sh_key := sh_key h; sh_signer := sh_signer h;
     sh_ctx := Some id; sh_cancel := Some id;
     sh_conn := sh_conn h; sh_cli := sh_cli h; sh_retries := sh_retries h |}.

Definition set_key (k : option string) (h : ssh) : ssh :=
  {| sh_cfg := sh_cfg h; sh_key := k; sh_signer := sh_signer h;
     sh_ctx := sh_ctx h; sh_cancel := sh_cancel h;
     sh_conn := sh_conn h; sh_cli := sh_cli h; sh_retries := sh_retries h |}.

Definition set_signer (k : option string) (h : ssh) : ssh :=
  {| sh_cfg := sh_cfg h; sh_key := sh_key h; sh_signer := k;
     sh_ctx := sh_ctx h; sh_cancel := sh_cancel h;
     sh_conn := sh_conn h; sh_cli := sh_cli h; sh_retries := sh_retries h |}.

Definition set_conn (c : option nat) (h : ssh) : ssh :=
  {| sh_cfg := sh_cfg h; sh_key := sh_key h; sh_signer := sh_signer h;
     sh_ctx := sh_ctx h; sh_cancel := sh_cancel h;
     sh_conn := c; sh_cli := sh_cli h; sh_retries := sh_retries h |}.

Definition set_cli (c : option nat) (h : ssh) : ssh :=
  {| sh_cfg := sh_cfg h; sh_key := sh_key h; sh_signer := sh_signer h;
     sh_ctx := sh_ctx h; sh_cancel := sh_cancel h;
     sh_conn := sh_conn h; sh_cli := c; sh_retries := sh_retries h |}.

Definition set_retries (m : gmap string Z) (h : ssh) : ssh :=
  {| sh_cfg := sh_cfg h; sh_key := sh_key h; sh_signer := sh_signer h;
     sh_ctx := sh_ctx h; sh_cancel := sh_cancel h;
     sh_conn := sh_conn h; sh_cli := sh_cli h; sh_retries := m |}.

(** [New]: nothing is connected and the ledger is empty. *)
Definition New (c : Config) : State :=
  {| sh := {| sh_cfg := c; sh_key := None; sh_signer := None;
              sh_ctx := None; sh_cancel := None;
              sh_conn := None; sh_cli := None; sh_retries := ∅ |};
     trace := [] |}.

(** ** The retry ledger *)

(** [sh.retries[key]] read as a value: a missing key reads as 0. *)
Definition ledger (s : State) (key : string) : Z :=
  default 0 (sh_retries (sh s) !! key).

(** [if _, ok := sh.retries[key]; !ok { sh.retries[key] = ret.retries }] *)
Definition seed (key : string) (n : Z) (s : State) : State :=
  match sh_retries (sh s) !! key with
  | Some _ => s
  | None => upd (set_retries (<[key := n]> (sh_retries (sh s)))) s
  end.

(** [sh.retries[key]--] *)
Definition decrement (key : string) (s : State) : State :=
  upd (set_retries (<[key := int_wrap (ledger s key - 1)]> (sh_retries (sh s)))) s.

(** [delete(sh.retries, key)] *)
Definition forget (key : string) (s : State) : State :=
  upd (set_retries (delete key (sh_retries (sh s)))) s.

(** ** Contexts and [select] *)

(** Lines 218-224, 307-313 and 386-392. *)
Definition derive (life : nat) (t : Z) : Context :=
  if t =? 0 then WithCancel life else WithTimeout life t.

(** The deadline a context has of its own; the lifetime context is made by
    [context.WithCancel(context.Background())] and has none. *)
Definition deadline (c : Context) : option Z :=
  match c with
  | WithCancel _ => None
  | WithTimeout _ d => Some d
  end.

Definition parent_of (c : Context) : nat :=
  match c with
  | WithCancel p => p
  | WithTimeout p _ => p
  end.

(** Has [sh.cancel()] been called on lifetime [id]? *)
Definition cancelled (id : nat) (tr : list Event) : bool :=
  existsb (fun e => match e with EvCancel i => Nat.eqb i id | _ => false end) tr.

(** When the lifetime of the call's context ends, counted from the start of
    the call: at once when it was cancelled before, else when the world
    says. *)
Definition lifetime_ends (c : Context) (tr : list Event) (r : Reply) : option Z :=
  if cancelled (parent_of c) tr then Some 0 else life_after r.

(** When [ctx.Done()] becomes ready, and what [ctx.Err()] is then. *)
Definition done_at (c : Context) (life_end : option Z) : option (Z * error) :=
  match deadline c, life_end with
  | None, None => None
  | Some d, None => Some (d, DeadlineExceeded)
  | None, Some l => Some (l, Canceled)
  | Some d, Some l =>
      if l <=? d then Some (l, Canceled) else Some (d, DeadlineExceeded)
  end.

Inductive Selected : Type :=
| CtxFirst (after : Z) (e : error)
| TaskFirst (after : Z)
| Blocked.

(** The [select] of lines 231-240 on [ctx.Done()] and [donec]. *)
Definition select (ctx_done : option (Z * error)) (task : option Z) (tie : bool)
  : Selected :=
  match ctx_done, task with
  | None, None => Blocked
  | Some (t, e), None => CtxFirst t e
  | None, Some d => TaskFirst d
  | Some (t, e), Some d =>
      if t <? d then CtxFirst t e
      else if d <? t then TaskFirst d
      else if tie then CtxFirst t e else TaskFirst d
  end.

Arguments done_at : simpl never.
Arguments select : simpl never.

(** ** The methods *)

(** How the dial loop is left: by [return errors.New("stopped")], by a panic
    ([sh.ctx] is nil), or by [break] or the end of the count, with the
    function's variable [err]. *)
Inductive DialExit : Type :=
| DialStopped
| DialPanic
| DialDone (err : option error).

Section Client.

Variable W : World.

Definition addr (s : State) : string := PublicIP (sh_cfg (sh s)) +:+ ":22".

(** What the dial loop logs for a dial error (lines 112-131): a refused
    connection and an error that is no [*net.OpError] are logged, any other
    [*net.OpError] is not. *)
Definition dial_warning (e : error) : list Event :=
  match e with
  | OpError true _ => [EvWarn "failed to dial (instance might not be ready yet)"]
  | OpError false _ => []
  | _ => [EvWarn "failed to dial"]
  end.

(** The loop of lines 97-133, with [n] attempts left; [err] is the function's
    variable [err] on entry.  [sh.ctx] was made at line 83 of the same call,
    so when it is done at line 99 it was cancelled from outside: the world
    says whether it was. *)
Fixpoint dial_loop (n : nat) (err : option error) (s : State) : State * DialExit :=
  match n with
  | O => (s, DialDone err)
  | S n' =>
      match sh_ctx (sh s) with
      | None => (s, DialPanic)
      | Some life =>
          if lifetime_done W (trace s) life
          then (s, DialStopped)
          else
            let r := dial_context W (trace s) (addr s) in
            let c := length (trace s) in
            let s := emit (EvDial (addr s) (15 * Second) r) s in
            match r with
            | None => (upd (set_conn (Some c)) s, DialDone None)
            | Some e =>
                let s := upd (set_conn None) s in
                let s := emits (dial_warning e) s in
                let s := emit (EvSleep (5 * Second)) s in
                dial_loop n' (Some e) s
            end
      end
  end.

Arguments dial_loop : simpl never.

(** [Connect], lines 82-170. *)
Definition Connect (s : State) : Res (option error) :=
  let id := length (trace s) in
  let s := emit (EvNewLifetime id) (upd (set_lifetime id) s) in
  let path := KeyPath (sh_cfg (sh s)) in
  let r := read_file W (trace s) path in
  let s := emit (EvReadFile path) s in
  match r with
  | inr cause => Ret (Some (ReadKeyFailed cause)) (upd (set_key None) s)
  | inl bytes =>
      let s := upd (set_key (Some bytes)) s in
      let p := parse_private_key W (trace s) bytes in
      let s := emit EvParseKey s in
      match p with
      | Some cause => Ret (Some (ParseKeyFailed cause)) (upd (set_signer None) s)
      | None =>
          let s := upd (set_signer (Some bytes)) s in
          let s := emit (EvInfo "dialing") s in
          match dial_loop 15 None s with
          | (s, DialStopped) => Ret (Some Stopped) s
          | (s, DialPanic) => Panic s
          | (s, DialDone (Some e)) => Ret (Some e) s
          | (s, DialDone None) =>
              let s := emit (EvInfo "dialed") s in
              match sh_conn (sh s) with
              | None => Panic s
              | Some c =>
                  let h := new_client_conn W (trace s) c in
                  let s := emit (EvHandshake c h) s in
                  match h with
                  | Some e =>
                      let ok := os_stat W (trace s) path in
                      let s := emit (EvStat path) s in
                      if ok
                      then Ret (Some e) (emit (EvWarn "failed to connect") s)
                      else Panic s
                  | None =>
                      let s := upd (set_cli (Some c)) s in
                      Ret None (emit (EvInfo "created client") s)
                  end
              end
          end
      end
  end.

(** [Close], lines 172-180: calling the nil [sh.cancel] or closing the nil
    [sh.conn] panics. *)
Definition Close (s : State) : Res unit :=
  match sh_cancel (sh s) with
  | None => Panic s
  | Some id =>
      let s := emit (EvCancel id) s in
      match sh_conn (sh s) with
      | None => Panic s
      | Some c =>
          let s := emit (EvConnClose c) s in
          Ret tt (emit (EvInfo "closed connection") s)
      end
  end.

(** The loops of lines 204-208 and 211-215. *)
Fixpoint setenv_all (kvs : list (string * string)) (s : State)
  : State * option error :=
  match kvs with
  | [] => (s, None)
  | (k, v) :: rest =>
      let r := session_setenv W (trace s) k v in
      let s := emit (EvSetenv k v) s in
      match r with
      | Some e => (s, Some e)
      | None => setenv_all rest s
      end
  end.

(** Lines 226-240: the command runs on a task of its own while the caller
    waits for the task or for the context, whichever is ready first.
    [None]: neither ever is. *)
Definition run_select (cmd : string) (c : Context) (s : State)
  : option (State * option string * option error) :=
  let r := combined_output W (trace s) cmd in
  let fire := done_at c (lifetime_ends c (trace s) r) in
  let s := emit (EvExec cmd) s in
  match select fire (task_after r) (tie_ctx_first r) with
  | Blocked => None
  | CtxFirst t e =>
      let s := emits [EvAwaitTask; EvCtxCancel; EvSessionClose; EvBlocked t] s in
      Some (s, None, Some e)
  | TaskFirst t =>
      let s := emits [EvCtxCancel; EvSessionClose; EvBlocked t] s in
      Some (s, task_out r, task_err r)
  end.

(** [cmd.CombinedOutput()] of a command made by [CommandContext(ctx, ...)]:
    the tool is killed when the context is done first. *)
Definition scp_run (args : list string) (c : Context) (s : State)
  : option (State * option string * option error) :=
  let r := scp_combined_output W (trace s) args in
  let fire := done_at c (lifetime_ends c (trace s) r) in
  let s := emit (EvScp args) s in
  match select fire (task_after r) (tie_ctx_first r) with
  | Blocked => None
  | CtxFirst t e =>
      Some (emits [EvCtxCancel; EvBlocked t] s, killed_out r, Some (killed_err r))
  | TaskFirst t =>
      Some (emits [EvCtxCancel; EvBlocked t] s, task_out r, task_err r)
  end.

(** The loop of lines 254-258 (and 360-364, 438-442): the ledger is
    decremented before every [Connect], until one succeeds. *)
Fixpoint reconnect (fuel : nat) (key : string) (s : State) : Res unit :=
  match fuel with
  | O => OutOfFuel
  | S fuel' =>
      match Connect (decrement key s) with
      | Ret None s => Ret tt s
      | Ret (Some _) s => reconnect fuel' key s
      | Panic s => Panic s
      | Hang s => Hang s
      | OutOfFuel => OutOfFuel
      end
  end.

(** Lines 263-266: the entry is deleted when the call is about to return no
    error. *)
Definition finish (key : string) (out : option string) (err : option error)
    (s : State) : Res (option string * option error) :=
  match err with
  | None => Ret (out, None) (forget key s)
  | Some e => Ret (out, Some e) s
  end.

(** What follows an attempt, lines 249-266 of [Run], 354-372 of [Send] and
    432-450 of [Download], which differ in the method called again only:
    [again] is that call. *)
Definition after_attempt (fuel : nat)
    (again : State -> Res (option string * option error))
    (key : string) (ret : Op) (out : option string) (err : option error)
    (s : State) : Res (option string * option error) :=
  match err with
  | None => finish key out None s
  | Some e =>
      let s := emit (EvWarn "command failed") s in
      if ledger s key =? 0 then finish key out (Some e) s
      else
        let s := emit (EvWarn "retrying") s in
        match Close s with
        | Ret _ s =>
            match reconnect fuel key s with
            | Ret _ s =>
                let s := emit (EvSleep (retryInterval ret)) s in
                match again s with
                | Ret (out, err) s => finish key out err s
                | Panic s => Panic s
                | Hang s => Hang s
                | OutOfFuel => OutOfFuel
                end
            | Panic s => Panic s
            | Hang s => Hang s
            | OutOfFuel => OutOfFuel
            end
        | Panic s => Panic s
        | Hang s => Hang s
        | OutOfFuel => OutOfFuel
        end
  end.

(** Lines 193-224 of [Run]: a session is opened, the environment is applied
    to it, and the context of the call is derived.  Either the call ends at
    once (left), or the command can be started (right). *)
Definition open_session (ret : Op) (s : State)
  : Res (option string * option error) + (State * Context) :=
  match sh_cli (sh s) with
  | None => inl (Panic s)
  | Some c =>
      let r := new_session W (trace s) c in
      let s := emit (EvNewSession c) s in
      match r with
      | Some e => inl (Ret (None, Some e) s)
      | None =>
          let s := emit (EvInfo "created client session, running command") s in
          match setenv_all (Envs (sh_cfg (sh s))) s with
          | (s, Some e) => inl (Ret (None, Some e) s)
          | (s, None) =>
              match setenv_all (envs ret) s with
              | (s, Some e) => inl (Ret (None, Some e) s)
              | (s, None) =>
                  match sh_ctx (sh s) with
                  | None => inl (Panic s)
                  | Some life =>
                      let c := derive life (timeout ret) in
                      inr (emit (EvContext c) s, c)
                  end
              end
          end
      end
  end.

(** One attempt of [Run], lines 191-247, after the ledger was seeded: either
    the call ends at once (left), or the command was started and the attempt
    ended with [out] and [err] (right). *)
Definition run_attempt (cmd : string) (ret : Op) (s : State)
  : Res (option string * option error) + (State * option string * option error) :=
  match open_session ret s with
  | inl r => inl r
  | inr (s, c) =>
      match run_select cmd c s with
      | None => inl (Hang s)
      | Some (s, out, err) =>
          let s := if verbose ret then emit (EvInfo "ran command") s else s in
          inr (s, out, err)
      end
  end.

(** [Run], lines 182-267.  [ret] is the value of the options after
    [ret.applyOpts(opts)]; the call made again at line 260 has the same
    [opts] and so the same [ret]. *)
Fixpoint Run (fuel : nat) (cmd : string) (ret : Op) (s : State)
  : Res (option string * option error) :=
  match fuel with
  | O => OutOfFuel
  | S fuel' =>
      let key := PublicDNSName (sh_cfg (sh s)) +:+ cmd in
      let s := seed key (retries ret) s in
      match run_attempt cmd ret s with
      | inl r => r
      | inr (s, out, err) =>
          after_attempt fuel' (Run fuel' cmd ret) key ret out err s
      end
  end.

(** The part [Send] and [Download] share, lines 307-352 and 386-430, up to
    the order of the two path arguments: [args] are the tool's arguments
    after its path, [said] what is logged on the verbose path. *)
Definition transfer_attempt (localPath : string) (args : list string)
    (said : string) (ret : Op) (s : State)
  : Res (option string * option error) + (State * option string * option error) :=
  match sh_ctx (sh s) with
  | None => inl (Panic s)
  | Some life =>
      let c := derive life (timeout ret) in
      let s := emit (EvContext c) s in
      let l := look_path W (trace s) "scp" in
      let s := emit (EvLookPath "scp") s in
      match l with
      | inr e => inl (Ret (None, Some e) (emit EvCtxCancel s))
      | inl scpPath =>
          let path := KeyPath (sh_cfg (sh s)) in
          let m := os_chmod W (trace s) path in
          let s := emit (EvChmod path) s in
          match m with
          | Some e => inl (Ret (None, Some e) (emit EvCtxCancel s))
          | None =>
              match scp_run (scpPath :: args) c s with
              | None => inl (Hang s)
              | Some (s, out, err) =>
                  let s :=
                    if verbose ret then
                      let ok := os_stat W (trace s) localPath in
                      let s := emit (EvStat localPath) s in
                      emit (EvInfo (if ok then said else "failed to " +:+ said)) s
                    else s in
                  inr (s, out, err)
              end
          end
      end
  end.

Definition remote (s : State) (remotePath : string) : string :=
  UserName (sh_cfg (sh s)) +:+ "@" +:+ PublicDNSName (sh_cfg (sh s)) +:+ ":"
  +:+ remotePath.

(** [Send], lines 296-373. *)
Fixpoint Send (fuel : nat) (localPath remotePath : string) (ret : Op) (s : State)
  : Res (option string * option error) :=
  match fuel with
  | O => OutOfFuel
  | S fuel' =>
      let key := PublicDNSName (sh_cfg (sh s)) +:+ localPath in
      let s := seed key (retries ret) s in
      let args := ["-oStrictHostKeyChecking=no"; "-i"; KeyPath (sh_cfg (sh s));
                   localPath; remote s remotePath] in
      match transfer_attempt localPath args "send" ret s with
      | inl r => r
      | inr (s, out, err) =>
          after_attempt fuel' (Send fuel' localPath remotePath ret) key ret out err s
      end
  end.

(** [Download], lines 375-451. *)
Fixpoint Download (fuel : nat) (remotePath localPath : string) (ret : Op) (s : State)
  : Res (option string * option error) :=
  match fuel with
  | O => OutOfFuel
  | S fuel' =>
      let key := PublicDNSName (sh_cfg (sh s)) +:+ localPath in
      let s := seed key (retries ret) s in
      let args := ["-oStrictHostKeyChecking=no"; "-i"; KeyPath (sh_cfg (sh s));
                   remote s remotePath; localPath] in
      match transfer_attempt localPath args "download" ret s with
      | inl r => r
      | inr (s, out, err) =>
          after_attempt fuel' (Download fuel' remotePath localPath ret) key ret out err s
      end
  end.

End Client.

Arguments dial_loop : simpl never.

(** ** Reading a trace *)

Fixpoint count (p : Event -> bool) (tr : list Event) : nat :=
  match tr with
  | [] => O
  | e :: tr' => if p e then S (count p tr') else count p tr'
  end.

Definition is_connect (e : Event) : bool :=
  match e with EvNewLifetime _ => true | _ => false end.

Definition is_close (e : Event) : bool :=
  match e with EvCancel _ | EvConnClose _ => true | _ => false end.

Definition is_dial (e : Event) : bool :=
  match e with EvDial _ _ _ => true | _ => false end.

Definition is_failed_dial (e : Event) : bool :=
  match e with EvDial _ _ (Some _) => true | _ => false end.

Definition is_attempt (e : Event) : bool :=
  match e with EvExec _ | EvScp _ => true | _ => false end.

Definition is_handshake (e : Event) : bool :=
  match e with EvHandshake _ _ => true | _ => false end.

(** The calls of [Connect] and of [Close] in a history, and the attempts
    (commands started, runs of the external tool). *)
Definition connects (tr : list Event) : nat := count is_connect tr.
Definition closes (tr : list Event) : nat := count is_close tr.
Definition attempts (tr : list Event) : nat := count is_attempt tr.

(** The time slept, in nanoseconds. *)
Fixpoint slept (tr : list Event) : Z :=
  match tr with
  | [] => 0
  | EvSleep d :: tr' => d + slept tr'
  | _ :: tr' => slept tr'
  end.

(** The answers to the dials of a history, most recent first. *)
Fixpoint dial_results (tr : list Event) : list (option error) :=
  match tr with
  | [] => []
  | EvDial _ _ r :: tr' => r :: dial_results tr'
  | _ :: tr' => dial_results tr'
  end.

(** The state a call ended in, and what it returned. *)
Definition final {A : Type} (r : Res A) : option State :=
  match r with
  | Ret _ s | Panic s | Hang s => Some s
  | OutOfFuel => None
  end.

Definition returned {A : Type} (r : Res A) : option A :=
  match r with
  | Ret a _ => Some a
  | _ => None
  end.

Definition panics {A : Type} (r : Res A) : Prop :=
  match r with
  | Panic _ => True
  | _ => False
  end.

(** The retry keys (lines 186, 300 and 379). *)
Definition run_key (s : State) (cmd : string) : string :=
  PublicDNSName (sh_cfg (sh s)) +:+ cmd.

Definition transfer_key (s : State) (localPath : string) : string :=
  PublicDNSName (sh_cfg (sh s)) +:+ localPath.

(** ** Frame lemmas *)

Lemma count_app p (a b : list Event) : count p (a ++ b) = (count p a + count p b)%nat.
Proof. induction a as [|e a IH]; simpl; [reflexivity|]. destruct (p e); lia. Qed.

Lemma seed_trace key n s : trace (seed key n s) = trace s.
Proof. unfold seed. destruct (sh_retries (sh s) !! key); reflexivity. Qed.

Lemma seed_cfg key n s : sh_cfg (sh (seed key n s)) = sh_cfg (sh s).
Proof. unfold seed. destruct (sh_retries (sh s) !! key); reflexivity. Qed.

Lemma seed_ctx key n s : sh_ctx (sh (seed key n s)) = sh_ctx (sh s).
Proof. unfold seed. destruct (sh_retries (sh s) !! key); reflexivity. Qed.

Lemma seed_cli key n s : sh_cli (sh (seed key n s)) = sh_cli (sh s).
Proof. unfold seed. destruct (sh_retries (sh s) !! key); reflexivity. Qed.

Lemma seed_lookup key n s :
  sh_retries (sh (seed key n s)) !! key
  = Some (default n (sh_retries (sh s) !! key)).
Proof.
  unfold seed. destruct (sh_retries (sh s) !! key) eqn:E; simpl.
  - exact E.
  - apply lookup_insert_eq.
Qed.

Lemma seed_present key n s :
  is_Some (sh_retries (sh s) !! key) -> seed key n s = s.
Proof. intros [v Hv]. unfold seed. rewrite Hv. reflexivity. Qed.

Section Frame.

Variable W : World.

Lemma setenv_all_sh kvs s : sh (fst (setenv_all W kvs s)) = sh s.
Proof.
  revert s. induction kvs as [|[k v] kvs IH]; intros s; simpl; [reflexivity|].
  destruct (session_setenv W (trace s) k v); simpl; [reflexivity|].
  rewrite IH. reflexivity.
Qed.

Lemma setenv_all_count p kvs s :
  (forall k v, p (EvSetenv k v) = false) ->
  count p (trace (fst (setenv_all W kvs s))) = count p (trace s).
Proof.
  intros Hp. revert s. induction kvs as [|[k v] kvs IH]; intros s; simpl; [reflexivity|].
  destruct (session_setenv W (trace s) k v); simpl.
  - rewrite Hp. reflexivity.
  - rewrite IH. simpl. rewrite Hp. reflexivity.
Qed.

Lemma dial_loop_S n err s :
  dial_loop W (S n) err s =
  match sh_ctx (sh s) with
  | None => (s, DialPanic)
  | Some life =>
      if lifetime_done W (trace s) life
      then (s, DialStopped)
      else
        match dial_context W (trace s) (addr s) with
        | None =>
            (upd (set_conn (Some (length (trace s))))
               (emit (EvDial (addr s) (15 * Second) None) s), DialDone None)
        | Some e =>
            dial_loop W n (Some e)
              (emit (EvSleep (5 * Second))
                 (emits (dial_warning e)
                    (upd (set_conn None)
                       (emit (EvDial (addr s) (15 * Second) (Some e)) s))))
        end
  end.
Proof.
  unfold dial_loop at 1. fold dial_loop.
  destruct (sh_ctx (sh s)); [|reflexivity].
  destruct (lifetime_done W _ _); [reflexivity|].
  destruct (dial_context W (trace s) (addr s)); reflexivity.
Qed.

Lemma dial_loop_frame n err s :
  let s' := fst (dial_loop W n err s) in
  sh_retries (sh s') = sh_retries (sh s) /\ sh_cfg (sh s') = sh_cfg (sh s)
  /\ sh_cli (sh s') = sh_cli (sh s) /\ sh_ctx (sh s') = sh_ctx (sh s)
  /\ sh_cancel (sh s') = sh_cancel (sh s).
Proof.
  revert err s. induction n as [|n IH]; intros err s; [simpl; tauto|].
  rewrite dial_loop_S.
  destruct (sh_ctx (sh s)) as [life|] eqn:Hc; simpl; [|tauto].
  destruct (lifetime_done W (trace s) life); simpl; [tauto|].
  destruct (dial_context W (trace s) (addr s)) as [e|]; simpl; [|tauto].
  match goal with |- context [dial_loop W n ?e' ?s'] =>
    destruct (IH e' s') as (H1 & H2 & H3 & H4 & H5) end.
  simpl in *. rewrite H1, H2, H3, H4, H5. tauto.
Qed.

Lemma Connect_frame s r :
  Connect W s = r ->
  forall s', final r = Some s' ->
  sh_retries (sh s') = sh_retries (sh s) /\ sh_cfg (sh s') = sh_cfg (sh s).
Proof.
  intros <- s'. unfold Connect.
  destruct (read_file W _ _) as [bytes|cause]; simpl.
  2:{ intros [= <-]. simpl. tauto. }
  destruct (parse_private_key W _ _) as [cause|]; simpl.
  1:{ intros [= <-]. simpl. tauto. }
  match goal with |- context [dial_loop W 15 None ?s0] =>
    pose proof (dial_loop_frame 15 None s0) as F;
    destruct (dial_loop W 15 None s0) as [s1 ex] end.
  simpl in F. destruct F as (F1 & F2 & _).
  destruct ex as [| |[e|]]; simpl; try (intros [= <-]; simpl; tauto).
  destruct (sh_conn (sh s1)) as [c|]; simpl; [|intros [= <-]; simpl; tauto].
  destruct (new_client_conn W _ c) as [e|]; simpl.
  - destruct (os_stat W _ _); simpl; intros [= <-]; simpl; tauto.
  - intros [= <-]; simpl; tauto.
Qed.

End Frame.

(** ** The three retried methods at once *)

Inductive Call : Type :=
| RunCmd (cmd : string)
| SendFile (localPath remotePath : string)
| DownloadFile (remotePath localPath : string).

Definition call (W : World) (fuel : nat) (c : Call) (ret : Op) (s : State)
  : Res (option string * option error) :=
  match c with
  | RunCmd cmd => Run W fuel cmd ret s
  | SendFile l r => Send W fuel l r ret s
  | DownloadFile r l => Download W fuel r l ret s
  end.

Definition key_of (s : State) (c : Call) : string :=
  match c with
  | RunCmd cmd => run_key s cmd
  | SendFile l _ => transfer_key s l
  | DownloadFile _ l => transfer_key s l
  end.

(** The attempt of a call, on the state [s] the seeding left. *)
Definition attempt_of (W : World) (c : Call) (ret : Op) (s : State)
  : Res (option string * option error) + (State * option string * option error) :=
  match c with
  | RunCmd cmd => run_attempt W cmd ret s
  | SendFile l r =>
      transfer_attempt W l
        ["-oStrictHostKeyChecking=no"; "-i"; KeyPath (sh_cfg (sh s)); l; remote s r]
        "send" ret s
  | DownloadFile r l =>
      transfer_attempt W l
        ["-oStrictHostKeyChecking=no"; "-i"; KeyPath (sh_cfg (sh s)); remote s r; l]
        "download" ret s
  end.

Lemma call_O W c ret s : call W O c ret s = OutOfFuel.
Proof. destruct c; reflexivity. Qed.

Lemma call_S W fuel c ret s :
  call W (S fuel) c ret s =
  match attempt_of W c ret (seed (key_of s c) (retries ret) s) with
  | inl r => r
  | inr (s', out, err) =>
      after_attempt W fuel (call W fuel c ret) (key_of s c) ret out err s'
  end.
Proof. destruct c; reflexivity. Qed.

Section Attempts.

Variable W : World.

(** An attempt that ends the call at once ends it with an error, a panic or
    a hang. *)
Definition early (r : Res (option string * option error)) : Prop :=
  match r with
  | Ret (_, Some _) _ | Panic _ | Hang _ => True
  | Ret (_, None) _ | OutOfFuel => False
  end.

Lemma open_session_inl ret s r :
  open_session W ret s = inl r -> early r.
Proof.
  unfold open_session. intros H.
  repeat (simpl in H; match type of H with
    | context [match ?x with _ => _ end] => destruct x eqn:?
    end); inversion H; subst; exact I.
Qed.

Lemma run_attempt_inl cmd ret s r :
  run_attempt W cmd ret s = inl r -> early r.
Proof.
  unfold run_attempt.
  destruct (open_session W ret s) as [r0|[s0 c]] eqn:E.
  - intros [= <-]. exact (open_session_inl _ _ _ E).
  - destruct (run_select W cmd c s0) as [[[s1 out] err]|]; [discriminate|].
    intros [= <-]. exact I.
Qed.

Lemma transfer_attempt_inl l args said ret s r :
  transfer_attempt W l args said ret s = inl r -> early r.
Proof.
  unfold transfer_attempt. intros H.
  repeat (simpl in H; match type of H with
    | context [match ?x with _ => _ end] => destruct x eqn:?
    end); inversion H; subst; exact I.
Qed.

Lemma attempt_of_inl c ret s r :
  attempt_of W c ret s = inl r -> early r.
Proof.
  destruct c; simpl; eauto using run_attempt_inl, transfer_attempt_inl.
Qed.

Lemma after_attempt_success fuel again key ret out err s o s' :
  after_attempt W fuel again key ret out err s = Ret (o, None) s' ->
  sh_retries (sh s') !! key = None.
Proof.
  unfold after_attempt, finish. intros H.
  repeat (simpl in H; match type of H with
    | context [match ?x with _ => _ end] => destruct x eqn:?
    end); inversion H; subst; simpl; apply lookup_delete_eq.
Qed.

End Attempts.

(** ** Worlds and clients used as examples *)

Module Examples.

Definition cfg0 : Config :=
  {| KeyPath := "/tmp/test.key"; PublicIP := "10.0.0.1"; PublicDNSName := "host";
     UserName := "ec2-user"; Envs := [] |}.

(** A command, or a run of the tool, that ends by itself after one
    nanosecond. *)
Definition ends (out : option string) (err : option error) : Reply :=
  {| task_after := Some 1; task_out := out; task_err := err;
     life_after := None; tie_ctx_first := false;
     killed_out := None; killed_err := Other "signal: killed" |}.

(** A command that never ends by itself. *)
Definition never_ends : Reply :=
  {| task_after := None; task_out := None; task_err := None;
     life_after := None; tie_ctx_first := false;
     killed_out := None; killed_err := Other "signal: killed" |}.

(** A healthy world: everything succeeds, every command prints [hi]. *)
Definition healthy : World :=
  {| read_file := fun _ _ => inl "KEY";
     parse_private_key := fun _ _ => None;
     lifetime_done := fun _ _ => false;
     dial_context := fun _ _ => None;
     new_client_conn := fun _ _ => None;
     os_stat := fun _ _ => true;
     new_session := fun _ _ => None;
     session_setenv := fun _ _ _ => None;
     combined_output := fun _ _ => ends (Some "hi") None;
     look_path := fun _ _ => inl "/usr/bin/scp";
     os_chmod := fun _ _ => None;
     scp_combined_output := fun _ _ => ends (Some "") None |}.

Definition with_dial (f : list Event -> string -> option error) (W : World) : World :=
  {| read_file := read_file W; parse_private_key := parse_private_key W;
     lifetime_done := lifetime_done W; dial_context := f;
     new_client_conn := new_client_conn W; os_stat := os_stat W;
     new_session := new_session W; session_setenv := session_setenv W;
     combined_output := combined_output W; look_path := look_path W;
     os_chmod := os_chmod W; scp_combined_output := scp_combined_output W |}.

Definition with_handshake (f : list Event -> nat -> option error) (W : World) : World :=
  {| read_file := read_file W; parse_private_key := parse_private_key W;
     lifetime_done := lifetime_done W; dial_context := dial_context W;
     new_client_conn := f; os_stat := os_stat W;
     new_session := new_session W; session_setenv := session_setenv W;
     combined_output := combined_output W; look_path := look_path W;
     os_chmod := os_chmod W; scp_combined_output := scp_combined_output W |}.

Definition with_command (f : list Event -> string -> Reply) (W : World) : World :=
  {| read_file := read_file W; parse_private_key := parse_private_key W;
     lifetime_done := lifetime_done W; dial_context := dial_context W;
     new_client_conn := new_client_conn W; os_stat := os_stat W;
     new_session := new_session W; session_setenv := session_setenv W;
     combined_output := f; look_path := look_path W;
     os_chmod := os_chmod W; scp_combined_output := scp_combined_output W |}.

Definition with_look_path (f : list Event -> string -> string + error) (W : World)
  : World :=
  {| read_file := read_file W; parse_private_key := parse_private_key W;
     lifetime_done := lifetime_done W; dial_context := dial_context W;
     new_client_conn := new_client_conn W; os_stat := os_stat W;
     new_session := new_session W; session_setenv := session_setenv W;
     combined_output := combined_output W; look_path := f;
     os_chmod := os_chmod W; scp_combined_output := scp_combined_output W |}.

(** The first [n] dials are refused. *)
Definition refuse_first (n : nat) : World :=
  with_dial (fun tr _ => if Nat.ltb (count is_dial tr) n
                         then Some (OpError true "connect: connection refused")
                         else None) healthy.

(** The first [n] commands fail with a transport error. *)
Definition fail_first (n : nat) : World :=
  with_command (fun tr _ => if Nat.ltb (count is_attempt tr) n
                            then ends None (Some (Other "EOF"))
                            else ends (Some "hi") None) healthy.

(** Every command fails. *)
Definition always_fails : World :=
  with_command (fun _ _ => ends None (Some (Other "EOF"))) healthy.

(** The handshake is rejected. *)
Definition rejected : World :=
  with_handshake (fun _ _ => Some (Other "ssh: handshake failed")) healthy.

(** The secure-copy tool is not in the search path. *)
Definition no_scp : World :=
  with_look_path (fun _ _ => inr (Other "executable file not found in $PATH")) healthy.

(** The client after [New] and a first [Connect] in the healthy world. *)
Definition connected : State :=
  match Connect healthy (New cfg0) with
  | Ret _ s => s
  | _ => New cfg0
  end.

Definition op_retries (n : Z) : Op :=
  {| verbose := true; retries := n; retryInterval := 0; timeout := 0; envs := [] |}.

End Examples.

(** ** The ledger after a successful call *)

(** C5. Whenever [Run], [Send] or [Download] returns a nil error, on the
    first attempt or after retries, the retry ledger holds no entry for the
    key of the call when the call returns. *)
Theorem success_forgets_key W fuel c ret s out s' :
  call W fuel c ret s = Ret (out, None) s' ->
  sh_retries (sh s') !! key_of s c = None.
Proof.
  destruct fuel as [|fuel]; [rewrite call_O; discriminate|].
  rewrite call_S.
  destruct (attempt_of W c ret _) as [r|[[s1 o] e]] eqn:A.
  - intros ->. exact (False_ind _ (attempt_of_inl W _ _ _ _ A)).
  - apply after_attempt_success.
Qed.

(** A run of the scenario of the specification: the first attempt fails with
    a transport error, the reconnect succeeds, the second attempt prints
    [hi]; no entry is left. *)
Lemma success_forgets_key_witness :
  exists s',
    Run (Examples.fail_first 1) 2 "echo hi" (Examples.op_retries 2) Examples.connected
    = Ret (Some "hi", None) s'
    /\ sh_retries (sh s') !! "hostecho hi" = None.
Proof.
  eexists. split.
  - vm_compute. reflexivity.
  - apply (success_forgets_key (Examples.fail_first 1) 2 (RunCmd "echo hi")
             (Examples.op_retries 2) Examples.connected (Some "hi")).
    vm_compute. reflexivity.
Defined.

(** ** Calls on a client that was never connected *)

(** C10. On a client fresh from [New], [Close] and [Run] do not return a
    not-connected error: [Close] calls the nil [sh.cancel] (and would close
    the nil [sh.conn]), [Run] opens a session on the nil [sh.cli], and both
    panic.  Any client without a connection makes [Close] panic and any
    client without a handle makes [Run] panic; after a [Connect] that
    returned nil, [Close] returns and the handle is there. *)
Theorem unconnected_calls_panic W cfg cmd ret fuel :
  Close (New cfg) = Panic (New cfg)
  /\ Run W (S fuel) cmd ret (New cfg)
     = Panic (seed (run_key (New cfg) cmd) (retries ret) (New cfg))
  /\ (forall s, sh_cancel (sh s) = None \/ sh_conn (sh s) = None -> panics (Close s))
  /\ (forall s, sh_cli (sh s) = None -> panics (Run W (S fuel) cmd ret s))
  /\ (forall s s', Connect W s = Ret None s' ->
        (exists s'', Close s' = Ret tt s'') /\ is_Some (sh_cli (sh s'))).
Proof.
  split; [reflexivity|]. split; [reflexivity|]. split; [|split].
  - intros s [H|H]; unfold Close.
    + rewrite H. exact I.
    + destruct (sh_cancel (sh s)); [|exact I]. simpl. rewrite H. exact I.
  - intros s H. simpl. unfold run_attempt, open_session. rewrite seed_cli, H. exact I.
  - intros s s'. unfold Connect.
    repeat (simpl; match goal with
      | |- context [match ?x with _ => _ end] => destruct x eqn:?
      end); try discriminate.
    intros [= <-]. unfold Close. simpl.
    match goal with H : dial_loop W 15 None ?s0 = _ |- _ =>
      pose proof (dial_loop_frame W 15 None s0) as F; rewrite H in F end.
    simpl in F. destruct F as (_ & _ & _ & _ & F). rewrite F.
    match goal with H : sh_conn _ = Some _ |- _ => rewrite H end.
    split; eauto.
Qed.

Lemma unconnected_calls_panic_witness :
  exists s'', Close Examples.connected = Ret tt s''.
Proof.
  apply (proj2 (proj2 (proj2 (proj2
           (unconnected_calls_panic Examples.healthy Examples.cfg0 "ls" default_op 0))))
         (New Examples.cfg0) Examples.connected).
  vm_compute. reflexivity.
Defined.

(** ** The channel after [Connect] *)

(** Not connected: neither a connection nor a client handle is stored. *)
Definition absent (s : State) : Prop :=
  sh_conn (sh s) = None /\ sh_cli (sh s) = None.

(** Connected: the stored connection was dialed and handshaked, and the
    client handle is built on it. *)
Definition established (s : State) : Prop :=
  exists c, sh_conn (sh s) = Some c /\ sh_cli (sh s) = Some c
            /\ In (EvHandshake c None) (trace s).

Definition all_or_nothing (s : State) : Prop := absent s \/ established s.

(** C8, as stated, fails: when the dial succeeds and the handshake is
    rejected, [Connect] returns the error and leaves the dialed connection in
    [sh.conn] with no client handle. *)
Lemma Connect_leaves_dialed_connection :
  exists e s,
    Connect Examples.rejected (New Examples.cfg0) = Ret (Some e) s
    /\ sh_conn (sh s) = Some 4%nat /\ sh_cli (sh s) = None
    /\ In (EvDial "10.0.0.1:22" (15 * Second) None) (trace s)
    /\ ~ all_or_nothing s.
Proof.
  eexists. eexists. split; [vm_compute; reflexivity|].
  split; [reflexivity|]. split; [reflexivity|]. split.
  - vm_compute. tauto.
  - intros [[H _]|(c & _ & H & _)]; vm_compute in H; discriminate.
Qed.

(** C8, amended. After a [Connect] that returns nil the channel is fully
    established: the connection stored is the one just dialed and
    handshaked, and the client handle is built on it.  A [Connect] that
    returns an error leaves the client handle as it was before the call
    (whatever it stored in [sh.conn]). *)
Theorem Connect_channel_state W s r s' :
  Connect W s = Ret r s' ->
  match r with
  | None => established s'
  | Some _ => sh_cli (sh s') = sh_cli (sh s)
  end.
Proof.
  unfold Connect.
  destruct (read_file W _ _) as [bytes|cause]; simpl; [|intros [= <- <-]; reflexivity].
  destruct (parse_private_key W _ _) as [cause|]; simpl; [intros [= <- <-]; reflexivity|].
  match goal with |- context [dial_loop W 15 None ?s0] =>
    pose proof (dial_loop_frame W 15 None s0) as F;
    destruct (dial_loop W 15 None s0) as [s1 ex] end.
  simpl in F. destruct F as (_ & _ & F & _).
  destruct ex as [| |[e|]]; simpl; try discriminate;
    try (intros [= <- <-]; exact F).
  destruct (sh_conn (sh s1)) as [c|] eqn:Hc; simpl; [|discriminate].
  destruct (new_client_conn W _ c) as [e|]; simpl.
  - destruct (os_stat W _ _); [|discriminate]. intros [= <- <-]. exact F.
  - intros [= <- <-]. exists c. simpl. auto.
Qed.

Lemma Connect_channel_state_witness : established Examples.connected.
Proof.
  apply (Connect_channel_state Examples.healthy (New Examples.cfg0) None).
  vm_compute. reflexivity.
Defined.

(** ** What one attempt changes *)

(** An attempt leaves the client alone and calls neither [Connect] nor
    [Close]; it starts at most one command (or run of the tool). *)
Definition attempt_frame (s s' : State) : Prop :=
  sh s' = sh s
  /\ connects (trace s') = connects (trace s)
  /\ closes (trace s') = closes (trace s)
  /\ (attempts (trace s') <= S (attempts (trace s)))%nat.

Definition attempt_framed (s : State)
    (a : Res (option string * option error) + (State * option string * option error))
  : Prop :=
  match a with
  | inl r => forall s', final r = Some s' -> attempt_frame s s'
  | inr (s', _, _) => attempt_frame s s'
  end.

Section AttemptFrame.

Variable W : World.

(** Steps that start no command either. *)
Definition silent (s s' : State) : Prop :=
  sh s' = sh s
  /\ connects (trace s') = connects (trace s)
  /\ closes (trace s') = closes (trace s)
  /\ attempts (trace s') = attempts (trace s).

Lemma attempt_frame_refl s : attempt_frame s s.
Proof. unfold attempt_frame. auto. Qed.

Lemma silent_frame s s' : silent s s' -> attempt_frame s s'.
Proof. unfold silent, attempt_frame. intros (-> & -> & -> & ->). auto. Qed.

Lemma silent_trans s1 s2 s3 : silent s1 s2 -> silent s2 s3 -> silent s1 s3.
Proof.
  unfold silent. intros (A1 & A2 & A3 & A4) (B1 & B2 & B3 & B4).
  rewrite B1, B2, B3, B4. auto.
Qed.

Lemma setenv_all_silent kvs s : silent s (fst (setenv_all W kvs s)).
Proof.
  unfold silent, connects, closes, attempts.
  rewrite setenv_all_sh, !setenv_all_count by reflexivity. auto.
Qed.

Lemma run_select_frame cmd c s s' out err :
  run_select W cmd c s = Some (s', out, err) ->
  sh s' = sh s /\ connects (trace s') = connects (trace s)
  /\ closes (trace s') = closes (trace s)
  /\ attempts (trace s') = S (attempts (trace s)).
Proof.
  unfold run_select. destruct (select _ _ _); intros [= <- <- <-]; simpl; auto.
Qed.

Lemma scp_run_frame args c s s' out err :
  scp_run W args c s = Some (s', out, err) ->
  sh s' = sh s /\ connects (trace s') = connects (trace s)
  /\ closes (trace s') = closes (trace s)
  /\ attempts (trace s') = S (attempts (trace s)).
Proof.
  unfold scp_run. destruct (select _ _ _); intros [= <- <- <-]; simpl; auto.
Qed.

Lemma run_attempt_frame cmd ret s : attempt_framed s (run_attempt W cmd ret s).
Proof.
  unfold run_attempt, open_session.
  destruct (sh_cli (sh s)) as [c|]; simpl; [|intros s' [= <-]; apply attempt_frame_refl].
  destruct (new_session W (trace s) c); simpl.
  { intros s' [= <-]. unfold attempt_frame; simpl; auto. }
  match goal with |- context [setenv_all W ?kvs ?s0] =>
    pose proof (setenv_all_silent kvs s0) as F1;
    destruct (setenv_all W kvs s0) as [s1 o1];
    assert (G1 : silent s s1)
      by (refine (silent_trans s s0 s1 _ F1); unfold silent; simpl; auto)
  end.
  clear F1.
  destruct o1; simpl; [intros s' [= <-]; exact (silent_frame _ _ G1)|].
  pose proof (setenv_all_silent (envs ret) s1) as F2.
  destruct (setenv_all W (envs ret) s1) as [s2 o2]. simpl in F2.
  pose proof (silent_trans _ _ _ G1 F2) as G2. clear F2 G1.
  destruct o2; simpl; [intros s' [= <-]; exact (silent_frame _ _ G2)|].
  destruct (sh_ctx (sh s2)) as [life|]; simpl;
    [|intros s' [= <-]; exact (silent_frame _ _ G2)].
  destruct G2 as (A1 & A2 & A3 & A4).
  destruct (run_select W cmd _ _) as [[[s3 out] err]|] eqn:R; simpl.
  - apply run_select_frame in R. destruct R as (R1 & R2 & R3 & R4).
    unfold attempt_frame, connects, closes, attempts in *. simpl in *.
    destruct (verbose ret); simpl; rewrite R1, R2, R3, R4, A1, A2, A3, A4; auto.
  - intros s' [= <-].
    unfold attempt_frame, connects, closes, attempts in *. simpl.
    rewrite A1, A2, A3, A4. auto.
Qed.

Lemma transfer_attempt_frame l args said ret s :
  attempt_framed s (transfer_attempt W l args said ret s).
Proof.
  unfold transfer_attempt.
  destruct (sh_ctx (sh s)) as [life|]; simpl; [|intros s' [= <-]; apply attempt_frame_refl].
  destruct (look_path W _ _) as [scpPath|e]; simpl.
  2:{ intros s' [= <-]. unfold attempt_frame; simpl; auto. }
  destruct (os_chmod W _ _); simpl.
  { intros s' [= <-]. unfold attempt_frame; simpl; auto. }
  destruct (scp_run W _ _ _) as [[[s3 out] err]|] eqn:R; simpl.
  - apply scp_run_frame in R. destruct R as (R1 & R2 & R3 & R4).
    unfold attempt_frame, connects, closes, attempts in *. simpl in *.
    destruct (verbose ret); simpl; rewrite R1, R2, R3, R4; auto.
  - intros s' [= <-]. unfold attempt_frame; simpl; auto.
Qed.

Lemma attempt_of_frame c ret s : attempt_framed s (attempt_of W c ret s).
Proof.
  destruct c; simpl; auto using run_attempt_frame, transfer_attempt_frame.
Qed.

(** With a budget of zero in the ledger, what follows an attempt neither
    closes nor reconnects nor calls the method again. *)
Lemma after_attempt_no_budget fuel again key ret out err s :
  ledger s key = 0 ->
  after_attempt W fuel again key ret out err s =
  match err with
  | None => Ret (out, None) (forget key s)
  | Some e => Ret (out, Some e) (emit (EvWarn "command failed") s)
  end.
Proof.
  intros H. unfold after_attempt, finish. destruct err; [|reflexivity].
  change (ledger (emit (EvWarn "command failed") s) key) with (ledger s key).
  rewrite H. reflexivity.
Qed.

End AttemptFrame.

(** ** Calls that find no budget in the ledger *)

Lemma key_of_seed c key n s : key_of (seed key n s) c = key_of s c.
Proof. destruct c; unfold key_of, run_key, transfer_key; rewrite seed_cfg; reflexivity. Qed.

(** When the ledger, once seeded, holds 0 for the key of a call, the call
    is over after its first attempt: one unit of fuel is enough, no [Connect]
    and no [Close] is made, and an error leaves the ledger as the seeding
    left it. *)
Lemma call_no_budget W fuel c ret s :
  ledger (seed (key_of s c) (retries ret) s) (key_of s c) = 0 ->
  call W (S fuel) c ret s = call W 1 c ret s
  /\ call W 1 c ret s <> OutOfFuel
  /\ forall s', final (call W 1 c ret s) = Some s' ->
       connects (trace s') = connects (trace s)
       /\ closes (trace s') = closes (trace s)
       /\ (attempts (trace s') <= S (attempts (trace s)))%nat
       /\ (forall out e, returned (call W 1 c ret s) = Some (out, Some e) ->
             sh s' = sh (seed (key_of s c) (retries ret) s)).
Proof.
  intros H. rewrite !call_S.
  pose proof (attempt_of_frame W c ret (seed (key_of s c) (retries ret) s)) as F.
  destruct (attempt_of W c ret _) as [r|[[s1 out] err]] eqn:A; simpl in F.
  - apply attempt_of_inl in A. split; [reflexivity|].
    split; [destruct r; simpl in A; congruence|].
    intros s' Hs'. destruct (F s' Hs') as (F1 & F2 & F3 & F4).
    rewrite seed_trace in *. auto.
  - destruct F as (F1 & F2 & F3 & F4). rewrite seed_trace in *.
    assert (L : ledger s1 (key_of s c) = 0) by (unfold ledger in *; rewrite F1; exact H).
    rewrite !after_attempt_no_budget by exact L.
    split; [reflexivity|]. split; [destruct err; discriminate|].
    destruct err; simpl; intros s' [= <-]; simpl; auto.
    repeat split; auto. discriminate.
Qed.

(** C1, as stated, fails: a [Run] with [retries = 0] whose command fails
    returns the error without any reconnect, but the entry the call seeded,
    with value 0, is still in the ledger afterwards. *)
Lemma Run_without_retries_leaves_entry :
  exists e s',
    sh_retries (sh Examples.connected) !! "hostls" = None
    /\ Run Examples.always_fails 1 "ls" (Examples.op_retries 0) Examples.connected
       = Ret (None, Some e) s'
    /\ connects (trace s') = connects (trace Examples.connected)
    /\ sh_retries (sh s') !! "hostls" = Some 0.
Proof.
  eexists. eexists. split; [vm_compute; reflexivity|].
  split; [vm_compute; reflexivity|]. split; vm_compute; reflexivity.
Qed.

(** C1, amended. A [Run] made with [retries = 0] for a key the ledger does
    not hold returns any failure of its only attempt at once: the call does
    not call itself again (one unit of fuel is enough), makes no [Connect]
    and no [Close], starts at most one command, and leaves in the ledger the
    entry it seeded for its key, with value 0. *)
Theorem Run_without_retries W fuel cmd ret s :
  retries ret = 0 ->
  sh_retries (sh s) !! run_key s cmd = None ->
  Run W (S fuel) cmd ret s = Run W 1 cmd ret s
  /\ Run W 1 cmd ret s <> OutOfFuel
  /\ forall out e s', Run W (S fuel) cmd ret s = Ret (out, Some e) s' ->
       connects (trace s') = connects (trace s)
       /\ closes (trace s') = closes (trace s)
       /\ (attempts (trace s') <= S (attempts (trace s)))%nat
       /\ sh_retries (sh s') !! run_key s cmd = Some 0.
Proof.
  intros Hr Hk.
  assert (L : ledger (seed (key_of s (RunCmd cmd)) (retries ret) s)
                (key_of s (RunCmd cmd)) = 0).
  { unfold ledger. rewrite seed_lookup. simpl. rewrite Hk. simpl. exact Hr. }
  destruct (call_no_budget W fuel (RunCmd cmd) ret s L) as (E & N & F).
  cbn [call key_of] in E, N, F. split; [exact E|]. split; [exact N|].
  intros out e s' R. rewrite E in R.
  destruct (F s') as (F1 & F2 & F3 & F4); [rewrite R; reflexivity|].
  repeat split; auto.
  rewrite (F4 out e) by (rewrite R; reflexivity).
  rewrite seed_lookup, Hk. simpl. rewrite Hr. reflexivity.
Qed.

Lemma Run_without_retries_witness :
  Run Examples.always_fails 3 "ls" (Examples.op_retries 0) Examples.connected
  = Run Examples.always_fails 1 "ls" (Examples.op_retries 0) Examples.connected
  /\ Run Examples.always_fails 1 "ls" (Examples.op_retries 0) Examples.connected
     <> OutOfFuel
  /\ forall out e s',
       Run Examples.always_fails 3 "ls" (Examples.op_retries 0) Examples.connected
       = Ret (out, Some e) s' ->
       connects (trace s') = connects (trace Examples.connected)
       /\ closes (trace s') = closes (trace Examples.connected)
       /\ (attempts (trace s') <= S (attempts (trace Examples.connected)))%nat
       /\ sh_retries (sh s') !! run_key Examples.connected "ls" = Some 0.
Proof.
  apply (Run_without_retries Examples.always_fails 2 "ls" (Examples.op_retries 0)
           Examples.connected).
  - reflexivity.
  - vm_compute. reflexivity.
Defined.

(** ** What closing, reconnecting and retrying change *)

Section Protocol.

Variable W : World.

Lemma Close_Ret s u s' :
  Close s = Ret u s' ->
  exists id c,
    sh_cancel (sh s) = Some id /\ sh_conn (sh s) = Some c
    /\ s' = emits [EvInfo "closed connection"; EvConnClose c; EvCancel id] s.
Proof.
  unfold Close. destruct (sh_cancel (sh s)) as [id|]; [|discriminate]. simpl.
  destruct (sh_conn (sh s)) as [c|]; [|discriminate].
  intros [= <-]. exists id, c. auto.
Qed.

Lemma Close_final s s' : final (Close s) = Some s' -> sh s' = sh s.
Proof.
  unfold Close. destruct (sh_cancel (sh s)) as [id|]; simpl; [|intros [= <-]; reflexivity].
  destruct (sh_conn (sh s)) as [c|]; simpl; intros [= <-]; reflexivity.
Qed.

(** The reconnect loop changes the ledger at [key] only, and keeps an entry
    there. *)
Lemma reconnect_frame fuel key s s' :
  final (reconnect W fuel key s) = Some s' ->
  sh_cfg (sh s') = sh_cfg (sh s)
  /\ exists v, sh_retries (sh s') = <[key := v]> (sh_retries (sh s)).
Proof.
  revert s. induction fuel as [|fuel IH]; intros s; simpl; [discriminate|].
  destruct (Connect W (decrement key s)) as [[e|] s1|s1|s1|] eqn:C; simpl;
    try discriminate;
    pose proof (Connect_frame W _ _ C s1 eq_refl) as [F1 F2]; simpl in F1, F2.
  - intros H. destruct (IH _ H) as (G1 & v & G2). split; [congruence|].
    exists v. rewrite G2, F1. apply insert_insert_eq.
  - intros [= <-]. split; [exact F2|]. eauto.
  - intros [= <-]. split; [exact F2|]. eauto.
  - intros [= <-]. split; [exact F2|]. eauto.
Qed.

(** How [after_attempt] can return. *)
Lemma after_attempt_Ret fuel again key ret out err s o e' s' :
  after_attempt W fuel again key ret out err s = Ret (o, e') s' ->
  (err = None /\ o = out /\ e' = None /\ s' = forget key s)
  \/ (exists e, err = Some e /\ ledger s key = 0 /\ o = out /\ e' = Some e
                /\ s' = emit (EvWarn "command failed") s)
  \/ (exists e s2 s3 o2 e2 s4,
        err = Some e /\ ledger s key <> 0
        /\ Close (emit (EvWarn "retrying") (emit (EvWarn "command failed") s))
           = Ret tt s2
        /\ reconnect W fuel key s2 = Ret tt s3
        /\ again (emit (EvSleep (retryInterval ret)) s3) = Ret (o2, e2) s4
        /\ finish key o2 e2 s4 = Ret (o, e') s').
Proof.
  unfold after_attempt. destruct err as [e|].
  2:{ unfold finish. intros [= <- <- <-]. left. auto. }
  change (ledger (emit (EvWarn "command failed") s) key) with (ledger s key).
  destruct (Z.eqb_spec (ledger s key) 0) as [Z|Z].
  { unfold finish. intros [= <- <- <-]. right. left. exists e. auto. }
  destruct (Close _) as [[] s2|s2|s2|] eqn:C; try discriminate.
  destruct (reconnect W fuel key s2) as [[] s3|s3|s3|] eqn:R; try discriminate.
  destruct (again _) as [[o2 e2] s4|s4|s4|] eqn:A; try discriminate.
  intros F. right. right. exists e, s2, s3, o2, e2, s4. repeat split; auto.
Qed.

Lemma finish_Ret key o e s o' e' s' :
  finish key o e s = Ret (o', e') s' ->
  o' = o /\ e' = e /\ sh_cfg (sh s') = sh_cfg (sh s)
  /\ (e = None -> s' = forget key s) /\ (e <> None -> s' = s).
Proof.
  unfold finish. destruct e; intros [= <- <- <-]; repeat split; auto; congruence.
Qed.

Lemma attempt_of_cfg c ret s :
  match attempt_of W c ret s with
  | inl r => forall s', final r = Some s' -> sh s' = sh s
  | inr (s', _, _) => sh s' = sh s
  end.
Proof.
  pose proof (attempt_of_frame W c ret s) as F.
  destruct (attempt_of W c ret s) as [r|[[s1 o] e]]; simpl in F.
  - intros s' H. exact (proj1 (F s' H)).
  - exact (proj1 F).
Qed.

(** A call never changes the configuration. *)
Lemma call_cfg fuel c ret s out e s' :
  call W fuel c ret s = Ret (out, e) s' -> sh_cfg (sh s') = sh_cfg (sh s).
Proof.
  revert s out e s'. induction fuel as [|fuel IH]; intros s out e s';
    [rewrite call_O; discriminate|].
  rewrite call_S. pose proof (attempt_of_cfg c ret (seed (key_of s c) (retries ret) s)) as F.
  destruct (attempt_of W c ret _) as [r|[[s1 o1] e1]].
  - intros ->. rewrite (F s' eq_refl), seed_cfg. reflexivity.
  - intros A. apply after_attempt_Ret in A.
    assert (C1 : sh_cfg (sh s1) = sh_cfg (sh s)) by (rewrite F; apply seed_cfg).
    destruct A as [(_ & _ & _ & ->)|[(e0 & _ & _ & _ & _ & ->)|
      (e0 & s2 & s3 & o2 & e2 & s4 & _ & _ & Cl & Rc & Ag & Fi)]]; simpl; auto.
    apply Close_Ret in Cl. destruct Cl as (id & cn & _ & _ & ->).
    pose proof (reconnect_frame fuel (key_of s c) _ s3
                  ltac:(rewrite Rc; reflexivity)) as [R1 _].
    apply IH in Ag. apply finish_Ret in Fi. destruct Fi as (_ & _ & F3 & _).
    simpl in *. congruence.
Qed.

Lemma key_of_cfg c s s' : sh_cfg (sh s') = sh_cfg (sh s) -> key_of s' c = key_of s c.
Proof. destruct c; unfold key_of, run_key, transfer_key; intros ->; reflexivity. Qed.

(** Whenever a call returns an error, the ledger holds an entry for its key:
    the entry is made when the call starts, not when a failure is seen. *)
Lemma error_keeps_entry fuel c ret s out e s' :
  call W fuel c ret s = Ret (out, Some e) s' ->
  is_Some (sh_retries (sh s') !! key_of s c).
Proof.
  revert s out e s'. induction fuel as [|fuel IH]; intros s out e s';
    [rewrite call_O; discriminate|].
  rewrite call_S. pose proof (attempt_of_cfg c ret (seed (key_of s c) (retries ret) s)) as F.
  destruct (attempt_of W c ret _) as [r|[[s1 o1] e1]].
  - intros ->. rewrite (F s' eq_refl), seed_lookup. eauto.
  - intros A. apply after_attempt_Ret in A.
    destruct A as [(_ & _ & [=] & _)|[(e0 & _ & _ & _ & _ & ->)|
      (e0 & s2 & s3 & o2 & e2 & s4 & _ & _ & Cl & Rc & Ag & Fi)]].
    + simpl. rewrite F, seed_lookup. eauto.
    + apply Close_Ret in Cl. destruct Cl as (id & cn & _ & _ & ->).
      pose proof (reconnect_frame fuel (key_of s c) _ s3
                    ltac:(rewrite Rc; reflexivity)) as [R1 _].
      apply finish_Ret in Fi. destruct Fi as (_ & Fe & _ & _ & Fs).
      subst e2. rewrite Fs in * by discriminate.
      apply IH in Ag. erewrite key_of_cfg in Ag; [exact Ag|].
      simpl in *. rewrite R1, F. apply seed_cfg.
Qed.

End Protocol.

(** ** Seeding comes first *)

(** C3, as stated, fails: [Send] seeds the ledger before it looks the tool
    up, so when [scp] is not found the call returns the lookup error at once
    and without a reconnect, but leaves the entry it seeded for its key. *)
Lemma Send_seeds_before_lookup :
  exists e s',
    sh_retries (sh Examples.connected) !! "host/tmp/a.txt" = None
    /\ Send Examples.no_scp 1 "/tmp/a.txt" "/home/ec2-user/a.txt"
         (Examples.op_retries 1) Examples.connected
       = Ret (None, Some e) s'
    /\ connects (trace s') = connects (trace Examples.connected)
    /\ sh_retries (sh s') !! "host/tmp/a.txt" = Some 1.
Proof.
  eexists. eexists. split; [vm_compute; reflexivity|].
  split; [vm_compute; reflexivity|]. split; vm_compute; reflexivity.
Qed.



(** ** A key that is already in the ledger *)

Definition with_retries (n : Z) (ret : Op) : Op :=
  {| verbose := verbose ret; retries := n; retryInterval := retryInterval ret;
     timeout := timeout ret; envs := envs ret |}.

Section Present.

Variable W : World.

Lemma after_attempt_ext fuel again1 again2 key ret1 ret2 out err s :
  retryInterval ret1 = retryInterval ret2 ->
  (forall s2, sh_cfg (sh s2) = sh_cfg (sh s) ->
              is_Some (sh_retries (sh s2) !! key) -> again1 s2 = again2 s2) ->
  after_attempt W fuel again1 key ret1 out err s
  = after_attempt W fuel again2 key ret2 out err s.
Proof.
  intros Hi Ha. unfold after_attempt. destruct err as [e|]; [|reflexivity].
  destruct (_ =? 0); [reflexivity|].
  destruct (Close _) as [[] s2|s2|s2|] eqn:C; try reflexivity.
  destruct (reconnect W fuel key s2) as [[] s3|s3|s3|] eqn:R; try reflexivity.
  apply Close_Ret in C. destruct C as (id & cn & _ & _ & ->).
  destruct (reconnect_frame W fuel key _ s3 ltac:(rewrite R; reflexivity))
    as (R1 & v & R2).
  rewrite Hi, Ha; [reflexivity| |].
  - simpl in *. exact R1.
  - simpl. rewrite R2, lookup_insert_eq. eauto.
Qed.

Lemma attempt_of_with_retries c ret n s :
  attempt_of W c (with_retries n ret) s = attempt_of W c ret s.
Proof. destruct c; reflexivity. Qed.

Lemma call_with_retries fuel c ret n s :
  is_Some (sh_retries (sh s) !! key_of s c) ->
  call W fuel c (with_retries n ret) s = call W fuel c ret s.
Proof.
  revert s. induction fuel as [|fuel IH]; intros s Hk; [rewrite !call_O; reflexivity|].
  rewrite !call_S, !seed_present by exact Hk.
  rewrite attempt_of_with_retries.
  pose proof (attempt_of_cfg W c ret s) as F.
  destruct (attempt_of W c ret s) as [r|[[s1 o] e]]; [reflexivity|].
  apply after_attempt_ext; [reflexivity|].
  intros s2 Hc Hs. apply IH.
  erewrite key_of_cfg; [exact Hs|]. rewrite Hc, F. reflexivity.
Qed.

End Present.

(** C9. When the ledger already holds an entry for the key of a [Run],
    [Send] or [Download] call, the retries the call asks for are ignored: the
    call behaves the same for every requested value.  The entry alone
    decides: when it is 0 the first failure is returned with no [Connect]
    and no [Close], whatever was requested. *)
Theorem requested_retries_ignored W fuel c ret n s :
  is_Some (sh_retries (sh s) !! key_of s c) ->
  call W fuel c (with_retries n ret) s = call W fuel c ret s
  /\ (ledger s (key_of s c) = 0 ->
      call W (S fuel) c (with_retries n ret) s = call W 1 c ret s
      /\ forall s', final (call W (S fuel) c (with_retries n ret) s) = Some s' ->
           connects (trace s') = connects (trace s)
           /\ closes (trace s') = closes (trace s)).
Proof.
  intros Hk. split; [apply call_with_retries; exact Hk|].
  intros Hz. rewrite call_with_retries by exact Hk.
  assert (L : ledger (seed (key_of s c) (retries ret) s) (key_of s c) = 0)
    by (rewrite seed_present by exact Hk; exact Hz).
  destruct (call_no_budget W fuel c ret s L) as (E & _ & F).
  split; [exact E|]. intros s' Hs'. rewrite E in Hs'.
  destruct (F s' Hs') as (F1 & F2 & _). auto.
Qed.

(** The client after a [Run] with [retries = 0] whose command failed: the
    entry of the command is left in the ledger, with value 0. *)
Definition left_behind : State :=
  match Run Examples.always_fails 1 "ls" (Examples.op_retries 0) Examples.connected with
  | Ret _ s => s
  | _ => Examples.connected
  end.

(** On that client a later [Run] of the same command with [retries = 5]
    returns its first failure. *)
Lemma requested_retries_ignored_witness :
  Run Examples.always_fails 4 "ls" (with_retries 5 (Examples.op_retries 0)) left_behind
  = Run Examples.always_fails 1 "ls" (Examples.op_retries 0) left_behind.
Proof.
  refine (proj1 (proj2 (requested_retries_ignored Examples.always_fails 3 (RunCmd "ls")
                          (Examples.op_retries 0) 5 left_behind _) _)).
  - vm_compute. eauto.
  - vm_compute. reflexivity.
Defined.

(** ** Cancellation during [Run] *)

(** The context [c] of the call is done before the command started on state
    [s] ends by itself: after how long, and with which [ctx.Err()]. *)
Definition fires_first (W : World) (cmd : string) (c : Context) (s : State)
  : option (Z * error) :=
  let r := combined_output W (trace s) cmd in
  match select (done_at c (lifetime_ends c (trace s) r)) (task_after r)
               (tie_ctx_first r) with
  | CtxFirst t e => Some (t, e)
  | _ => None
  end.

Lemma done_at_err c l t e :
  done_at c l = Some (t, e) -> e = DeadlineExceeded \/ e = Canceled.
Proof.
  unfold done_at. destruct (deadline c) as [d|], l as [l|]; try discriminate.
  - destruct (l <=? d); intros [= <- <-]; auto.
  - intros [= <- <-]; auto.
  - intros [= <- <-]; auto.
Qed.

Lemma select_CtxFirst fire task tie t e :
  select fire task tie = CtxFirst t e -> fire = Some (t, e).
Proof.
  unfold select. destruct fire as [[t0 e0]|], task as [d|]; try discriminate.
  - destruct (t0 <? d); [intros [= <- <-]; reflexivity|].
    destruct (d <? t0); [discriminate|].
    destruct tie; [intros [= <- <-]; reflexivity|discriminate].
  - intros [= <- <-]; reflexivity.
Qed.

Module Cancelled.

(** The first command never ends by itself, the later ones print [hi]. *)
Definition slow_first : World :=
  Examples.with_command
    (fun tr _ => if Nat.ltb (count is_attempt tr) 1
                 then Examples.never_ends
                 else Examples.ends (Some "hi") None)
    Examples.healthy.

(** One retry, and a deadline of one second. *)
Definition op : Op :=
  {| verbose := true; retries := 1; retryInterval := 0; timeout := Second; envs := [] |}.

End Cancelled.

(** C6, as stated, fails: the deadline fires before the command ends, the
    ledger holds a budget of 1, and the call does not return the
    cancellation error: it reconnects, runs the command again and returns
    its output with a nil error. *)
Lemma Run_cancelled_then_retried :
  exists s2 c s',
    open_session Cancelled.slow_first Cancelled.op
      (seed (run_key Examples.connected "echo hi") 1 Examples.connected)
    = inr (s2, c)
    /\ fires_first Cancelled.slow_first "echo hi" c s2 = Some (Second, DeadlineExceeded)
    /\ Run Cancelled.slow_first 2 "echo hi" Cancelled.op Examples.connected
       = Ret (Some "hi", None) s'
    /\ In EvAwaitTask (trace s').
Proof.
  eexists. eexists. eexists. split; [vm_compute; reflexivity|].
  split; [vm_compute; reflexivity|]. split; [vm_compute; reflexivity|].
  vm_compute. tauto.
Qed.

(** C6, amended. In [Run], when the deadline or the cancellation of the
    lifetime fires before the command ends, the session is closed, the task
    is still awaited, its result is dropped and the attempt ends with nil
    output and the error of the context, which is a cancellation error.
    That is what the call returns when the ledger holds 0 for its key;
    otherwise the attempt is followed by the retry protocol like any other
    failed attempt, and the call returns what the protocol returns. *)
Theorem Run_cancelled W fuel cmd ret s s2 c t e :
  open_session W ret (seed (run_key s cmd) (retries ret) s) = inr (s2, c) ->
  fires_first W cmd c s2 = Some (t, e) ->
  let s3 := emits [EvAwaitTask; EvCtxCancel; EvSessionClose; EvBlocked t]
              (emit (EvExec cmd) s2) in
  let s4 := if verbose ret then emit (EvInfo "ran command") s3 else s3 in
  (e = DeadlineExceeded \/ e = Canceled)
  /\ run_select W cmd c s2 = Some (s3, None, Some e)
  /\ Run W (S fuel) cmd ret s
     = after_attempt W fuel (Run W fuel cmd ret) (run_key s cmd) ret None (Some e) s4
  /\ (ledger (seed (run_key s cmd) (retries ret) s) (run_key s cmd) = 0 ->
      Run W (S fuel) cmd ret s = Ret (None, Some e) (emit (EvWarn "command failed") s4)).
Proof.
  intros Ho Hf s3 s4.
  assert (Hs : run_select W cmd c s2 = Some (s3, None, Some e)).
  { unfold fires_first in Hf. unfold run_select.
    destruct (select _ _ _) as [t0 e0| |]; try discriminate.
    injection Hf as -> ->. reflexivity. }
  assert (Hr : Run W (S fuel) cmd ret s
     = after_attempt W fuel (Run W fuel cmd ret) (run_key s cmd) ret None (Some e) s4).
  { cbn [Run]. unfold run_attempt. fold (run_key s cmd). rewrite Ho, Hs. reflexivity. }
  split; [|split; [exact Hs|split; [exact Hr|]]].
  - unfold fires_first in Hf.
    destruct (select _ _ _) as [t0 e0| |] eqn:Sel; try discriminate.
    injection Hf as -> ->. apply select_CtxFirst in Sel.
    exact (done_at_err _ _ _ _ Sel).
  - intros L. rewrite Hr. apply after_attempt_no_budget.
    assert (E : sh s4 = sh (seed (run_key s cmd) (retries ret) s)).
    { pose proof (run_attempt_frame W cmd ret (seed (run_key s cmd) (retries ret) s)) as F.
      unfold run_attempt in F. rewrite Ho, Hs in F. exact (proj1 F). }
    unfold ledger in *. rewrite E. exact L.
Qed.

Lemma Run_cancelled_witness :
  exists s',
    Run Cancelled.slow_first 1 "echo hi" (with_retries 0 Cancelled.op) Examples.connected
    = Ret (None, Some DeadlineExceeded) s'
    /\ In EvAwaitTask (trace s') /\ In EvSessionClose (trace s').
Proof.
  eexists. split.
  - refine (proj2 (proj2 (proj2
      (Run_cancelled Cancelled.slow_first 0 "echo hi" (with_retries 0 Cancelled.op)
         Examples.connected _ _ Second DeadlineExceeded _ _))) _).
    + vm_compute. reflexivity.
    + vm_compute. reflexivity.
    + vm_compute. reflexivity.
  - vm_compute. tauto.
Defined.

(** ** The contexts a call derives *)

(** Every context derived in the history satisfies [Q]. *)
Definition contexts_ok (Q : Context -> Prop) (tr : list Event) : Prop :=
  forall c, In (EvContext c) tr -> Q c.

Definition no_deadline (c : Context) : Prop := deadline c = None.

Section Contexts.

Variable W : World.
Variable Q : Context -> Prop.

Local Abbreviation P := (contexts_ok Q).

Lemma contexts_ok_cons e tr :
  (forall c, e = EvContext c -> Q c) -> P tr -> P (e :: tr).
Proof. intros He H c [->|Hc]; eauto. Qed.

Ltac quiet := repeat (apply contexts_ok_cons; [discriminate|]); try assumption.

Lemma contexts_setenv_all kvs s :
  P (trace s) -> P (trace (fst (setenv_all W kvs s))).
Proof.
  revert s. induction kvs as [|[k v] kvs IH]; intros s H; simpl; [exact H|].
  destruct (session_setenv W (trace s) k v); simpl; [quiet|].
  apply IH. simpl. quiet.
Qed.

Lemma contexts_dial_loop n err s :
  P (trace s) -> P (trace (fst (dial_loop W n err s))).
Proof.
  revert err s. induction n as [|n IH]; intros err s H; [exact H|].
  rewrite dial_loop_S.
  destruct (sh_ctx (sh s)) as [life|]; [|exact H].
  destruct (lifetime_done W (trace s) life); [exact H|].
  destruct (dial_context W (trace s) (addr s)) as [e|]; simpl; [|quiet].
  apply IH. simpl. apply contexts_ok_cons; [discriminate|].
  destruct e as [| | |[|] ?| | |]; simpl; quiet.
Qed.

Lemma contexts_Connect s s' :
  final (Connect W s) = Some s' -> P (trace s) -> P (trace s').
Proof.
  intros H H0. revert H. unfold Connect.
  destruct (read_file W _ _) as [bytes|cause]; simpl;
    [|intros [= <-]; simpl; quiet].
  destruct (parse_private_key W _ _) as [cause|]; simpl;
    [intros [= <-]; simpl; quiet|].
  match goal with |- context [dial_loop W 15 None ?s0] =>
    pose proof (contexts_dial_loop 15 None s0) as D;
    destruct (dial_loop W 15 None s0) as [s1 ex] end.
  simpl in D. assert (D' : P (trace s1)) by (apply D; quiet). clear D.
  destruct ex as [| |[e|]]; simpl; try (intros [= <-]; exact D').
  destruct (sh_conn (sh s1)) as [c|]; simpl; [|intros [= <-]; simpl; quiet].
  destruct (new_client_conn W _ c) as [e|]; simpl.
  - destruct (os_stat W _ _); simpl; intros [= <-]; simpl; quiet.
  - intros [= <-]; simpl; quiet.
Qed.

Lemma contexts_Close s s' :
  final (Close s) = Some s' -> P (trace s) -> P (trace s').
Proof.
  intros H H0. revert H. unfold Close.
  destruct (sh_cancel (sh s)) as [id|]; simpl; [|intros [= <-]; exact H0].
  destruct (sh_conn (sh s)) as [c|]; simpl; intros [= <-]; simpl; quiet.
Qed.

Lemma contexts_reconnect fuel key s s' :
  final (reconnect W fuel key s) = Some s' -> P (trace s) -> P (trace s').
Proof.
  revert s. induction fuel as [|fuel IH]; intros s; simpl; [discriminate|].
  pose proof (contexts_Connect (decrement key s)) as C.
  destruct (Connect W (decrement key s)) as [[e|] s1|s1|s1|]; simpl in *;
    try discriminate.
  - intros H H0. apply (IH s1 H). apply C; auto.
  - intros [= <-] H0. apply C; auto.
  - intros [= <-] H0. apply C; auto.
  - intros [= <-] H0. apply C; auto.
Qed.

Variable ret : Op.
Hypothesis Q_derive : forall life, Q (derive life (timeout ret)).

Lemma contexts_open_session s :
  P (trace s) ->
  match open_session W ret s with
  | inl r => forall s', final r = Some s' -> P (trace s')
  | inr (s', _) => P (trace s')
  end.
Proof.
  intros H. unfold open_session.
  destruct (sh_cli (sh s)) as [c|]; simpl; [|intros s' [= <-]; exact H].
  destruct (new_session W (trace s) c); simpl; [intros s' [= <-]; simpl; quiet|].
  match goal with |- context [setenv_all W ?kvs ?s0] =>
    pose proof (contexts_setenv_all kvs s0) as F1;
    destruct (setenv_all W kvs s0) as [s1 o1] end.
  simpl in F1. assert (G1 : P (trace s1)) by (apply F1; quiet). clear F1.
  destruct o1; simpl; [intros s' [= <-]; exact G1|].
  pose proof (contexts_setenv_all (envs ret) s1 G1) as G2.
  destruct (setenv_all W (envs ret) s1) as [s2 o2]. simpl in G2.
  destruct o2; simpl; [intros s' [= <-]; exact G2|].
  destruct (sh_ctx (sh s2)) as [life|]; simpl; [|intros s' [= <-]; exact G2].
  apply contexts_ok_cons; [|exact G2]. intros c0 [= <-]. apply Q_derive.
Qed.

Lemma contexts_attempt_of c s :
  P (trace s) ->
  match attempt_of W c ret s with
  | inl r => forall s', final r = Some s' -> P (trace s')
  | inr (s', _, _) => P (trace s')
  end.
Proof.
  intros H. destruct c as [cmd|l r|r l]; simpl.
  - unfold run_attempt. pose proof (contexts_open_session s H) as O.
    destruct (open_session W ret s) as [r0|[s1 c]]; [exact O|].
    unfold run_select. destruct (select _ _ _); simpl.
    + destruct (verbose ret); simpl; quiet.
    + destruct (verbose ret); simpl; quiet.
    + intros s' [= <-]. exact O.
  - unfold transfer_attempt.
    destruct (sh_ctx (sh s)) as [life|]; simpl; [|intros s' [= <-]; exact H].
    assert (H1 : P (EvContext (derive life (timeout ret)) :: trace s))
      by (apply contexts_ok_cons; [intros c0 [= <-]; apply Q_derive|exact H]).
    destruct (look_path W _ _) as [scpPath|e]; simpl; [|intros s' [= <-]; simpl; quiet].
    destruct (os_chmod W _ _); simpl; [intros s' [= <-]; simpl; quiet|].
    unfold scp_run. destruct (select _ _ _); simpl.
    + destruct (verbose ret); simpl; quiet.
    + destruct (verbose ret); simpl; quiet.
    + intros s' [= <-]. simpl. quiet.
  - unfold transfer_attempt.
    destruct (sh_ctx (sh s)) as [life|]; simpl; [|intros s' [= <-]; exact H].
    assert (H1 : P (EvContext (derive life (timeout ret)) :: trace s))
      by (apply contexts_ok_cons; [intros c0 [= <-]; apply Q_derive|exact H]).
    destruct (look_path W _ _) as [scpPath|e]; simpl; [|intros s' [= <-]; simpl; quiet].
    destruct (os_chmod W _ _); simpl; [intros s' [= <-]; simpl; quiet|].
    unfold scp_run. destruct (select _ _ _); simpl.
    + destruct (verbose ret); simpl; quiet.
    + destruct (verbose ret); simpl; quiet.
    + intros s' [= <-]. simpl. quiet.
Qed.

Lemma contexts_after_attempt fuel again key out err s s' :
  (forall s1 s2, final (again s1) = Some s2 -> P (trace s1) -> P (trace s2)) ->
  final (after_attempt W fuel again key ret out err s) = Some s' ->
  P (trace s) -> P (trace s').
Proof.
  intros Ha H H0. revert H. unfold after_attempt, finish.
  destruct err as [e|]; simpl; [|intros [= <-]; exact H0].
  destruct (_ =? 0); simpl; [intros [= <-]; simpl; quiet|].
  match goal with |- context [Close ?s0] =>
    pose proof (contexts_Close s0) as C; destruct (Close s0) as [[] s2|s2|s2|] end;
    simpl in *; try discriminate;
    try (intros [= <-]; apply C; [reflexivity|simpl; quiet]).
  assert (C2 : P (trace s2)) by (apply C; [reflexivity|simpl; quiet]). clear C.
  pose proof (contexts_reconnect fuel key s2) as R.
  destruct (reconnect W fuel key s2) as [[] s3|s3|s3|]; simpl in *; try discriminate;
    try (intros [= <-]; apply R; auto).
  assert (C3 : P (trace s3)) by (apply R; auto). clear R.
  match goal with |- context [again ?s0] =>
    pose proof (Ha s0) as A; destruct (again s0) as [[o2 [e2|]] s4|s4|s4|] end;
    simpl in *; try discriminate;
    intros [= <-]; simpl; apply A; try reflexivity; simpl; quiet.
Qed.

Lemma contexts_call fuel c s s' :
  final (call W fuel c ret s) = Some s' -> P (trace s) -> P (trace s').
Proof.
  revert s s'. induction fuel as [|fuel IH]; intros s s';
    [rewrite call_O; discriminate|].
  rewrite call_S. intros H H0.
  pose proof (contexts_attempt_of c (seed (key_of s c) (retries ret) s)) as A.
  rewrite seed_trace in A. specialize (A H0).
  destruct (attempt_of W c ret _) as [r|[[s1 o] e]]; [exact (A s' H)|].
  exact (contexts_after_attempt fuel _ _ _ _ _ _ (fun s1 s2 => IH s1 s2) H A).
Qed.

End Contexts.

(** ** Calls without a timeout *)

(** What the caller of a call without a deadline of its own waits for: the
    end of the command or the end of the lifetime, whichever comes first, for
    ever when neither comes. *)
Definition wait_without_deadline (life_end task : option Z) (tie : bool) : Selected :=
  match life_end, task with
  | None, None => Blocked
  | Some l, None => CtxFirst l Canceled
  | None, Some d => TaskFirst d
  | Some l, Some d =>
      if l <? d then CtxFirst l Canceled
      else if d <? l then TaskFirst d
      else if tie then CtxFirst l Canceled else TaskFirst d
  end.

Lemma select_no_deadline c life_end task tie :
  deadline c = None ->
  select (done_at c life_end) task tie = wait_without_deadline life_end task tie.
Proof.
  intros H. unfold done_at, select, wait_without_deadline. rewrite H.
  destruct life_end, task; reflexivity.
Qed.

(** C7. A [Run], [Send] or [Download] call with [timeout = 0] puts no
    deadline of its own on the call: the context it derives is
    [context.WithCancel(sh.ctx)], every context derived until the call ends
    (retries included) has no deadline, and each attempt waits for the end of
    the command (or of the tool) or for the cancellation of the client's
    lifetime, whichever comes first, and then ends with [Canceled], never
    with [DeadlineExceeded]. *)
Theorem timeout_zero_no_deadline W fuel c ret s :
  timeout ret = 0 ->
  (forall life, derive life (timeout ret) = WithCancel life)
  /\ (forall s', final (call W fuel c ret s) = Some s' ->
        contexts_ok no_deadline (trace s) -> contexts_ok no_deadline (trace s'))
  /\ (forall life tr r,
        let cx := derive life (timeout ret) in
        select (done_at cx (lifetime_ends cx tr r)) (task_after r) (tie_ctx_first r)
        = wait_without_deadline (lifetime_ends cx tr r) (task_after r)
            (tie_ctx_first r)).
Proof.
  intros H.
  assert (D : forall life, derive life (timeout ret) = WithCancel life)
    by (intros life; unfold derive; rewrite H; reflexivity).
  split; [exact D|]. split.
  - intros s'. apply contexts_call. intros life. rewrite D. reflexivity.
  - intros life tr r cx. apply select_no_deadline. unfold cx. rewrite D. reflexivity.
Qed.

(** A command that never ends, run without a timeout on a healthy
    connection, blocks for ever. *)
Lemma timeout_zero_no_deadline_witness :
  (exists s',
     Run (Examples.with_command (fun _ _ => Examples.never_ends) Examples.healthy)
       1 "tail -f /var/log/messages" (Examples.op_retries 0) Examples.connected
     = Hang s')
  /\ select (done_at (derive 0 0) (lifetime_ends (derive 0 0) [] Examples.never_ends))
       None false
     = Blocked.
Proof.
  split; [eexists; vm_compute; reflexivity|].
  exact (proj2 (proj2 (timeout_zero_no_deadline Examples.healthy 1 (RunCmd "ls")
                         (Examples.op_retries 0) Examples.connected eq_refl))
           0%nat [] Examples.never_ends).
Defined.

(** ** The dial loop *)

(** The failed dials among the answers. *)
Fixpoint failures (rs : list (option error)) : nat :=
  match rs with
  | [] => O
  | Some _ :: rs' => S (failures rs')
  | None :: rs' => failures rs'
  end.

Lemma dial_results_app a b : dial_results (a ++ b) = dial_results a ++ dial_results b.
Proof.
  induction a as [|e a IH]; simpl; [reflexivity|].
  destruct e; simpl; rewrite ?IH; reflexivity.
Qed.

Lemma slept_app a b : slept (a ++ b) = slept a + slept b.
Proof.
  induction a as [|e a IH]; simpl; [reflexivity|].
  destruct e; simpl; rewrite ?IH; lia.
Qed.

Lemma failures_app a b : failures (a ++ b) = (failures a + failures b)%nat.
Proof.
  induction a as [|[e|] a IH]; simpl; rewrite ?IH; reflexivity.
Qed.

Lemma failures_le rs : (failures rs <= length rs)%nat.
Proof. induction rs as [|[e|] rs IH]; simpl; lia. Qed.

Lemma dial_warning_quiet e :
  dial_results (dial_warning e) = [] /\ slept (dial_warning e) = 0
  /\ (forall a l r, ~ In (EvDial a l r) (dial_warning e))
  /\ (forall c h, ~ In (EvHandshake c h) (dial_warning e)).
Proof.
  destruct e as [| | |[|] ?| | |]; simpl; repeat split; intros; intuition discriminate.
Qed.

(** How the loop was left, read against the answers to its dials (most
    recent first). *)
Definition dial_exit_ok (n : nat) (err : option error) (new : list Event)
    (ex : DialExit) : Prop :=
  let rs := dial_results new in
  match ex with
  | DialDone None =>
      (n = O /\ err = None /\ new = [])
      \/ (exists rest, rs = None :: rest /\ failures rest = length rest)
  | DialDone (Some e) =>
      (n = O /\ err = Some e /\ new = [])
      \/ (exists rest, rs = Some e :: rest /\ length rs = n /\ failures rs = n)
  | DialStopped | DialPanic =>
      failures rs = length rs /\ (length rs < n)%nat
  end.

Section DialLoop.

Variable W : World.

Lemma dial_loop_spec n err s :
  exists new,
    trace (fst (dial_loop W n err s)) = new ++ trace s
    /\ (length (dial_results new) <= n)%nat
    /\ (forall a l r, In (EvDial a l r) new -> l = 15 * Second)
    /\ (forall c h, ~ In (EvHandshake c h) new)
    /\ slept new = 5 * Second * Z.of_nat (failures (dial_results new))
    /\ dial_exit_ok n err new (snd (dial_loop W n err s)).
Proof.
  revert err s. induction n as [|n IH]; intros err s.
  { exists []. simpl. repeat split; auto; try tauto; try lia.
    destruct err; simpl; auto. }
  rewrite dial_loop_S.
  destruct (sh_ctx (sh s)) as [life|].
  2:{ exists []. simpl. repeat split; auto; try tauto; lia. }
  destruct (lifetime_done W (trace s) life).
  { exists []. simpl. repeat split; auto; try tauto; lia. }
  destruct (dial_context W (trace s) (addr s)) as [e|].
  2:{ exists [EvDial (addr s) (15 * Second) None]. simpl.
      repeat split; auto; try lia.
      - intros a l r [[= <- <- <-]|[]]. reflexivity.
      - intros c h [[=]|[]].
      - right. exists []. auto. }
  match goal with |- context [dial_loop W n ?e' ?s'] =>
    destruct (IH e' s') as (new & T & L & Lim & Hs & Sl & Ex) end.
  destruct (dial_warning_quiet e) as (Q1 & Q2 & Q3 & Q4).
  exists (new ++ EvSleep (5 * Second) :: dial_warning e
              ++ [EvDial (addr s) (15 * Second) (Some e)]).
  assert (R : dial_results (new ++ EvSleep (5 * Second) :: dial_warning e
                              ++ [EvDial (addr s) (15 * Second) (Some e)])
              = dial_results new ++ [Some e]).
  { rewrite dial_results_app. simpl. rewrite dial_results_app, Q1. reflexivity. }
  rewrite R. split; [|split; [|split; [|split; [|split]]]].
  - rewrite T. simpl. rewrite <- !app_assoc. simpl. rewrite <- app_assoc. reflexivity.
  - rewrite length_app. simpl. lia.
  - intros a l r Hin. apply in_app_or in Hin. destruct Hin as [Hin|Hin]; [eauto|].
    simpl in Hin. destruct Hin as [[=]|Hin].
    apply in_app_or in Hin. destruct Hin as [Hin|[[= <- <- <-]|[]]];
      [exfalso; exact (Q3 _ _ _ Hin)|reflexivity].
  - intros c h Hin. apply in_app_or in Hin. destruct Hin as [Hin|Hin]; [exact (Hs _ _ Hin)|].
    simpl in Hin. destruct Hin as [[=]|Hin].
    apply in_app_or in Hin. destruct Hin as [Hin|[[=]|[]]]. exact (Q4 _ _ Hin).
  - rewrite slept_app. simpl. rewrite slept_app, Q2, Sl. simpl.
    rewrite failures_app. simpl. lia.
  - unfold dial_exit_ok in *. rewrite R.
    destruct (snd (dial_loop W n _ _)) as [| |[e'|]].
    + destruct Ex as [E1 E2]. rewrite failures_app, length_app. simpl. lia.
    + destruct Ex as [E1 E2]. rewrite failures_app, length_app. simpl. lia.
    + right. destruct Ex as [(-> & [= <-] & ->)|(rest & E1 & E2 & E3)].
      * exists []. simpl. auto.
      * rewrite E1 in *. exists (rest ++ [Some e]).
        rewrite failures_app, length_app. simpl in *. repeat split; auto; lia.
    + right. destruct Ex as [(-> & [=] & _)|(rest & E1 & E2)].
      rewrite E1. exists (rest ++ [Some e]).
      rewrite failures_app, length_app. simpl. split; [reflexivity|lia].
Qed.

End DialLoop.

Section ConnectDials.

Variable W : World.

Lemma dial_loop_conn n err s :
  snd (dial_loop W n err s) = DialDone None ->
  (n = O /\ err = None) \/ is_Some (sh_conn (sh (fst (dial_loop W n err s)))).
Proof.
  revert err s. induction n as [|n IH]; intros err s.
  { simpl. intros [= ->]. auto. }
  rewrite dial_loop_S.
  destruct (sh_ctx (sh s)) as [life|]; [|discriminate].
  destruct (lifetime_done W (trace s) life); [discriminate|].
  destruct (dial_context W (trace s) (addr s)) as [e|]; [|simpl; eauto].
  intros H. destruct (IH _ _ H) as [[_ [=]]|C]. auto.
Qed.

(** What [Connect] adds to the history, around the events [newd] of its dial
    loop: [pre] before the loop and [post] after it hold no dial and no
    sleep, and [pre] no handshake. *)
Definition around_dials (post newd pre new : list Event) : Prop :=
  new = post ++ newd ++ pre
  /\ dial_results post = [] /\ slept post = 0
  /\ (forall a l r, ~ In (EvDial a l r) post)
  /\ dial_results pre = [] /\ slept pre = 0
  /\ (forall a l r, ~ In (EvDial a l r) pre)
  /\ (forall c h, ~ In (EvHandshake c h) pre).

Lemma around_dials_results post newd pre new :
  around_dials post newd pre new ->
  dial_results new = dial_results newd /\ slept new = slept newd
  /\ (forall a l r, In (EvDial a l r) new -> In (EvDial a l r) newd).
Proof.
  intros (-> & A1 & A2 & A3 & B1 & B2 & B3 & _).
  rewrite !dial_results_app, !slept_app, A1, A2, B1, B2, app_nil_r. simpl.
  repeat split; [lia|].
  intros a l r H. apply in_app_or in H. destruct H as [H|H]; [destruct (A3 _ _ _ H)|].
  apply in_app_or in H. destruct H as [H|H]; [exact H|destruct (B3 _ _ _ H)].
Qed.

Ltac no_such_event :=
  simpl; repeat split; auto;
  try (intros; intro; repeat match goal with
         | H : _ \/ _ |- _ => destruct H
         | H : False |- _ => destruct H
         end; discriminate).

(** The shape of every run of [Connect]. *)
Lemma Connect_shape s s' :
  final (Connect W s) = Some s' ->
  exists post newd pre,
    trace s' = (post ++ newd ++ pre) ++ trace s
    /\ around_dials post newd pre (post ++ newd ++ pre)
    /\ (length (dial_results newd) <= 15)%nat
    /\ (forall a l r, In (EvDial a l r) newd -> l = 15 * Second)
    /\ (forall c h, ~ In (EvHandshake c h) newd)
    /\ slept newd = 5 * Second * Z.of_nat (failures (dial_results newd))
    /\ (failures (dial_results newd) = 15%nat ->
        exists e rest, dial_results newd = Some e :: rest
                       /\ Connect W s = Ret (Some e) s')
    /\ (forall rest, dial_results newd = None :: rest ->
        (exists c h, In (EvHandshake c h) post)
        /\ (forall c, In (EvHandshake c None) post -> Connect W s = Ret None s')).
Proof.
  unfold Connect.
  destruct (read_file W _ _) as [bytes|cause] eqn:Rd; simpl.
  2:{ intros [= <-]. simpl.
      exists [], [], [EvReadFile (KeyPath (sh_cfg (sh s))); EvNewLifetime (length (trace s))].
      split; [reflexivity|]. unfold around_dials.
      no_such_event; try lia; try discriminate. }
  destruct (parse_private_key W _ _) as [cause|] eqn:Pk; simpl.
  1:{ intros [= <-]. simpl.
      exists [], [], [EvParseKey; EvReadFile (KeyPath (sh_cfg (sh s)));
                      EvNewLifetime (length (trace s))].
      split; [reflexivity|]. unfold around_dials.
      no_such_event; try lia; try discriminate. }
  match goal with |- context [dial_loop W 15 None ?s0] =>
    destruct (dial_loop_spec W 15 None s0) as (newd & T & L & Lim & Hs & Sl & Ex);
    pose proof (dial_loop_conn 15 None s0) as Cn;
    destruct (dial_loop W 15 None s0) as [s1 ex] end.
  simpl in T, Ex, Cn.
  set (pre := [EvInfo "dialing"; EvParseKey; EvReadFile (KeyPath (sh_cfg (sh s)));
               EvNewLifetime (length (trace s))]) in *.
  assert (Pre : forall post, dial_results post = [] -> slept post = 0 ->
                  (forall a l r, ~ In (EvDial a l r) post) ->
                  around_dials post newd pre (post ++ newd ++ pre)).
  { intros post P1 P2 P3. unfold around_dials, pre. no_such_event. }
  assert (T' : forall post, post ++ trace s1 = (post ++ newd ++ pre) ++ trace s).
  { intros post. rewrite T. rewrite <- !app_assoc. reflexivity. }
  destruct ex as [| |[e|]]; simpl.
  - intros [= <-]. exists [], newd, pre.
    split; [exact (T' [])|].
    split; [apply (Pre []); no_such_event|].
    unfold dial_exit_ok in Ex. destruct Ex as [E1 E2].
    repeat split; auto.
    + intros F. lia.
    + rewrite H in E1. simpl in E1. pose proof (failures_le rest). lia.
    + intros c [].
  - intros [= <-]. exists [], newd, pre.
    split; [exact (T' [])|].
    split; [apply (Pre []); no_such_event|].
    unfold dial_exit_ok in Ex. destruct Ex as [E1 E2].
    repeat split; auto.
    + intros F. lia.
    + rewrite H in E1. simpl in E1. pose proof (failures_le rest). lia.
    + intros c [].
  - intros [= <-]. exists [], newd, pre.
    split; [exact (T' [])|].
    split; [apply (Pre []); no_such_event|].
    unfold dial_exit_ok in Ex. destruct Ex as [(E1 & _)|(rest & E1 & E2 & E3)];
      [discriminate|].
    repeat split; auto.
    + intros _. eauto.
    + rewrite E1 in H. discriminate.
    + intros c [].
  - unfold dial_exit_ok in Ex. destruct Ex as [(E1 & _)|(rest & E1 & E2)];
      [discriminate|].
    destruct (Cn eq_refl) as [[[=] _]|[c Hc]]. rewrite Hc.
    assert (NF : failures (dial_results newd) <> 15%nat).
    { rewrite E1 in *. simpl in *. pose proof (failures_le rest). lia. }
    destruct (new_client_conn W _ c) as [e|] eqn:Hh; simpl.
    + destruct (os_stat W _ _); simpl; intros [= <-]; simpl.
      * exists [EvWarn "failed to connect"; EvStat (KeyPath (sh_cfg (sh s)));
                EvHandshake c (Some e); EvInfo "dialed"], newd, pre.
        split; [exact (T' [EvWarn "failed to connect";
                           EvStat (KeyPath (sh_cfg (sh s)));
                           EvHandshake c (Some e); EvInfo "dialed"])|].
        split; [apply Pre; no_such_event|].
        repeat split; auto; try tauto.
        -- exists c, (Some e). simpl. tauto.
        -- intros c0 Hin. simpl in Hin.
           repeat (destruct Hin as [Hin|Hin]; try discriminate). destruct Hin.
      * exists [EvStat (KeyPath (sh_cfg (sh s)));
                EvHandshake c (Some e); EvInfo "dialed"], newd, pre.
        split; [exact (T' [EvStat (KeyPath (sh_cfg (sh s)));
                           EvHandshake c (Some e); EvInfo "dialed"])|].
        split; [apply Pre; no_such_event|].
        repeat split; auto; try tauto.
        -- exists c, (Some e). simpl. tauto.
        -- intros c0 Hin. simpl in Hin.
           repeat (destruct Hin as [Hin|Hin]; try discriminate). destruct Hin.
    + intros [= <-]. simpl.
      exists [EvInfo "created client"; EvHandshake c None; EvInfo "dialed"], newd, pre.
      split; [exact (T' [EvInfo "created client"; EvHandshake c None;
                         EvInfo "dialed"])|].
      split; [apply Pre; no_such_event|].
      repeat split; auto; try tauto.
      exists c, None. simpl. tauto.
Qed.

End ConnectDials.

(** C4. [Connect] dials at most 15 times, every dial under a limit of 15
    seconds, and sleeps 5 seconds after every failed dial, whatever the
    error was.  When all 15 dials fail it returns the error of the last one.
    When the first three dials fail and the fourth succeeds it has slept
    3 x 5 seconds, goes on to the handshake, and returns nil when the
    handshake succeeds.  ([new] is what the call added to the history, most
    recent first.) *)
Theorem Connect_dial_loop W s s' :
  final (Connect W s) = Some s' ->
  exists new,
    trace s' = new ++ trace s
    /\ (length (dial_results new) <= 15)%nat
    /\ (forall a l r, In (EvDial a l r) new -> l = 15 * Second)
    /\ slept new = 5 * Second * Z.of_nat (failures (dial_results new))
    /\ (failures (dial_results new) = 15%nat ->
        exists e rest, dial_results new = Some e :: rest
                       /\ Connect W s = Ret (Some e) s')
    /\ (forall e1 e2 e3, dial_results new = [None; Some e3; Some e2; Some e1] ->
        slept new = 3 * (5 * Second)
        /\ (exists c h, In (EvHandshake c h) new)
        /\ (forall c, In (EvHandshake c None) new -> Connect W s = Ret None s')).
Proof.
  intros H.
  destruct (Connect_shape W s s' H)
    as (post & newd & pre & T & A & L & Lim & Hs & Sl & All & Ok).
  destruct (around_dials_results _ _ _ _ A) as (R1 & R2 & R3).
  exists (post ++ newd ++ pre). rewrite R1, R2.
  split; [exact T|]. split; [exact L|].
  split; [intros a l r Hin; exact (Lim a l r (R3 a l r Hin))|]. split; [exact Sl|].
  split; [exact All|].
  intros e1 e2 e3 E. destruct (Ok _ E) as [(c & h & Hin) Hok].
  split; [rewrite Sl, E; reflexivity|]. split.
  - exists c, h. apply in_or_app. auto.
  - intros c0 Hin0. apply (Hok c0).
    destruct A as (_ & _ & _ & _ & _ & _ & _ & Hpre).
    apply in_app_or in Hin0. destruct Hin0 as [Hin0|Hin0]; [exact Hin0|].
    apply in_app_or in Hin0. destruct Hin0 as [Hin0|Hin0];
      [destruct (Hs _ _ Hin0)|destruct (Hpre _ _ Hin0)].
Qed.

(** The first three dials are refused and the fourth succeeds: no error, 15
    seconds slept. *)
Example Connect_refused_three_times :
  exists s',
    Connect (Examples.refuse_first 3) (New Examples.cfg0) = Ret None s'
    /\ length (dial_results (trace s')) = 4%nat
    /\ slept (trace s') = 15 * Second.
Proof. eexists. split; [vm_compute; reflexivity|]. split; vm_compute; reflexivity. Qed.

(** All 15 dials are refused: the last error is returned, after 15 sleeps. *)
Example Connect_refused_always :
  exists s',
    Connect (Examples.refuse_first 15) (New Examples.cfg0)
    = Ret (Some (OpError true "connect: connection refused")) s'
    /\ length (dial_results (trace s')) = 15%nat
    /\ slept (trace s') = 75 * Second
    /\ sh_conn (sh s') = None.
Proof.
  eexists. split; [vm_compute; reflexivity|].
  split; [vm_compute; reflexivity|]. split; vm_compute; reflexivity.
Qed.

(** The client after a [Connect] whose first three dials were refused. *)
Definition connected_late : State :=
  match Connect (Examples.refuse_first 3) (New Examples.cfg0) with
  | Ret _ s => s
  | _ => New Examples.cfg0
  end.

Lemma Connect_dial_loop_witness :
  exists new,
    trace connected_late = new ++ trace (New Examples.cfg0)
    /\ (length (dial_results new) <= 15)%nat
    /\ (forall a l r, In (EvDial a l r) new -> l = 15 * Second)
    /\ slept new = 5 * Second * Z.of_nat (failures (dial_results new))
    /\ (failures (dial_results new) = 15%nat ->
        exists e rest, dial_results new = Some e :: rest
                       /\ Connect (Examples.refuse_first 3) (New Examples.cfg0)
                          = Ret (Some e) connected_late)
    /\ (forall e1 e2 e3, dial_results new = [None; Some e3; Some e2; Some e1] ->
        slept new = 3 * (5 * Second)
        /\ (exists c h, In (EvHandshake c h) new)
        /\ (forall c, In (EvHandshake c None) new ->
              Connect (Examples.refuse_first 3) (New Examples.cfg0)
              = Ret None connected_late)).
Proof.
  apply (Connect_dial_loop (Examples.refuse_first 3) (New Examples.cfg0) connected_late).
  vm_compute. reflexivity.
Defined.

(** ** How a call moves the client on *)

(** The history only grows. *)
Definition extends (s s' : State) : Prop :=
  exists new, trace s' = new ++ trace s.

(** From [s] to [s']: the history grew, the configuration is the same, and
    the ledger is the same away from [key]. *)
Definition evolves (key : string) (s s' : State) : Prop :=
  extends s s'
  /\ sh_cfg (sh s') = sh_cfg (sh s)
  /\ forall k, k <> key -> sh_retries (sh s') !! k = sh_retries (sh s) !! k.

Lemma extends_refl s : extends s s.
Proof. exists []. reflexivity. Qed.

Lemma extends_trans s1 s2 s3 : extends s1 s2 -> extends s2 s3 -> extends s1 s3.
Proof.
  intros [a Ha] [b Hb]. exists (b ++ a). rewrite Hb, Ha, app_assoc. reflexivity.
Qed.

Lemma extends_trace s s' : trace s' = trace s -> extends s s'.
Proof. intros H. exists []. exact H. Qed.

Lemma extends_cons e s s' : extends s s' -> extends s (emit e s').
Proof. intros [a Ha]. exists (e :: a). simpl. rewrite Ha. reflexivity. Qed.

Lemma extends_app es s s' : extends s s' -> extends s (emits es s').
Proof. intros [a Ha]. exists (es ++ a). simpl. rewrite Ha, app_assoc. reflexivity. Qed.

Lemma extends_count p s s' :
  extends s s' -> (count p (trace s) <= count p (trace s'))%nat.
Proof. intros [a Ha]. rewrite Ha, count_app. lia. Qed.

Lemma extends_In e s s' : extends s s' -> In e (trace s) -> In e (trace s').
Proof. intros [a Ha] H. rewrite Ha. apply in_or_app. auto. Qed.

Lemma evolves_refl key s : evolves key s s.
Proof. split; [apply extends_refl|]. auto. Qed.

Lemma evolves_trans key s1 s2 s3 :
  evolves key s1 s2 -> evolves key s2 s3 -> evolves key s1 s3.
Proof.
  intros (A1 & A2 & A3) (B1 & B2 & B3). split; [eapply extends_trans; eauto|].
  split; [congruence|]. intros k Hk. rewrite B3, A3 by exact Hk. reflexivity.
Qed.

(** A step that leaves the client alone and grows the history. *)
Lemma evolves_same_sh key s s' : sh s' = sh s -> extends s s' -> evolves key s s'.
Proof. intros E X. split; [exact X|]. rewrite E. auto. Qed.

Lemma evolves_seed key n s : evolves key s (seed key n s).
Proof.
  split; [apply extends_trace, seed_trace|]. split; [apply seed_cfg|].
  intros k Hk. unfold seed. destruct (sh_retries (sh s) !! key); [reflexivity|].
  simpl. apply lookup_insert_ne. congruence.
Qed.

Lemma evolves_decrement key s : evolves key s (decrement key s).
Proof.
  split; [apply extends_trace; reflexivity|]. split; [reflexivity|].
  intros k Hk. simpl. apply lookup_insert_ne. congruence.
Qed.

Lemma evolves_forget key s : evolves key s (forget key s).
Proof.
  split; [apply extends_trace; reflexivity|]. split; [reflexivity|].
  intros k Hk. simpl. apply lookup_delete_ne. congruence.
Qed.

Section Evolution.

Variable W : World.

Lemma setenv_all_extends kvs s : extends s (fst (setenv_all W kvs s)).
Proof.
  revert s. induction kvs as [|[k v] kvs IH]; intros s; simpl; [apply extends_refl|].
  destruct (session_setenv W (trace s) k v); simpl.
  - apply extends_cons, extends_refl.
  - eapply extends_trans; [|apply IH]. apply extends_cons, extends_refl.
Qed.

Lemma Connect_evolves key s s' :
  final (Connect W s) = Some s' -> evolves key s s'.
Proof.
  intros H. destruct (Connect_frame W s _ eq_refl s' H) as [F1 F2].
  destruct (Connect_shape W s s' H) as (post & newd & pre & T & _).
  split; [eexists; exact T|]. split; [exact F2|]. intros k _. rewrite F1. reflexivity.
Qed.

Lemma Close_extends s s' : final (Close s) = Some s' -> extends s s'.
Proof.
  unfold Close. destruct (sh_cancel (sh s)) as [id|]; simpl;
    [|intros [= <-]; apply extends_refl].
  destruct (sh_conn (sh s)) as [c|]; simpl; intros [= <-];
    repeat apply extends_cons; apply extends_refl.
Qed.

Lemma Close_evolves key s s' : final (Close s) = Some s' -> evolves key s s'.
Proof.
  intros H. apply evolves_same_sh; [exact (Close_final _ _ H)|exact (Close_extends _ _ H)].
Qed.

Lemma reconnect_evolves fuel key s s' :
  final (reconnect W fuel key s) = Some s' -> evolves key s s'.
Proof.
  revert s. induction fuel as [|fuel IH]; intros s; simpl; [discriminate|].
  pose proof (Connect_evolves key (decrement key s)) as C.
  pose proof (evolves_decrement key s) as D.
  destruct (Connect W (decrement key s)) as [[e|] s1|s1|s1|]; simpl in *;
    try discriminate.
  - intros H. eapply evolves_trans; [|exact (IH _ H)].
    eapply evolves_trans; [exact D|]. apply C. reflexivity.
  - intros [= <-]. eapply evolves_trans; [exact D|]. apply C. reflexivity.
  - intros [= <-]. eapply evolves_trans; [exact D|]. apply C. reflexivity.
  - intros [= <-]. eapply evolves_trans; [exact D|]. apply C. reflexivity.
Qed.

Lemma open_session_extends ret s :
  match open_session W ret s with
  | inl r => forall s', final r = Some s' -> extends s s'
  | inr (s', _) => extends s s'
  end.
Proof.
  unfold open_session.
  destruct (sh_cli (sh s)) as [c|]; simpl; [|intros s' [= <-]; apply extends_refl].
  destruct (new_session W (trace s) c); simpl.
  { intros s' [= <-]. apply extends_cons, extends_refl. }
  match goal with |- context [setenv_all W ?kvs ?s0] =>
    pose proof (setenv_all_extends kvs s0) as F1;
    destruct (setenv_all W kvs s0) as [s1 o1];
    assert (G1 : extends s s1)
      by (refine (extends_trans s s0 s1 _ F1);
          apply extends_cons, extends_cons, extends_refl)
  end.
  clear F1. destruct o1; simpl; [intros s' [= <-]; exact G1|].
  pose proof (setenv_all_extends (envs ret) s1) as F2.
  destruct (setenv_all W (envs ret) s1) as [s2 o2]. simpl in F2.
  pose proof (extends_trans _ _ _ G1 F2) as G2.
  destruct o2; simpl; [intros s' [= <-]; exact G2|].
  destruct (sh_ctx (sh s2)) as [life|]; simpl; [|intros s' [= <-]; exact G2].
  apply extends_cons. exact G2.
Qed.

Lemma attempt_of_extends c ret s :
  match attempt_of W c ret s with
  | inl r => forall s', final r = Some s' -> extends s s'
  | inr (s', _, _) => extends s s'
  end.
Proof.
  destruct c as [cmd|l r|r l]; simpl.
  - unfold run_attempt. pose proof (open_session_extends ret s) as O.
    destruct (open_session W ret s) as [r0|[s1 c]]; [exact O|].
    unfold run_select. destruct (select _ _ _); simpl.
    + destruct (verbose ret); repeat apply extends_cons;
        apply extends_app, extends_cons; exact O.
    + destruct (verbose ret); repeat apply extends_cons;
        apply extends_app, extends_cons; exact O.
    + intros s' [= <-]. exact O.
  - unfold transfer_attempt.
    destruct (sh_ctx (sh s)) as [life|]; simpl; [|intros s' [= <-]; apply extends_refl].
    destruct (look_path W _ _) as [scpPath|e]; simpl;
      [|intros s' [= <-]; repeat apply extends_cons; apply extends_refl].
    destruct (os_chmod W _ _); simpl;
      [intros s' [= <-]; repeat apply extends_cons; apply extends_refl|].
    unfold scp_run. destruct (select _ _ _); simpl.
    + destruct (verbose ret); repeat apply extends_cons;
        apply extends_app; repeat apply extends_cons; apply extends_refl.
    + destruct (verbose ret); repeat apply extends_cons;
        apply extends_app; repeat apply extends_cons; apply extends_refl.
    + intros s' [= <-]. repeat apply extends_cons; apply extends_refl.
  - unfold transfer_attempt.
    destruct (sh_ctx (sh s)) as [life|]; simpl; [|intros s' [= <-]; apply extends_refl].
    destruct (look_path W _ _) as [scpPath|e]; simpl;
      [|intros s' [= <-]; repeat apply extends_cons; apply extends_refl].
    destruct (os_chmod W _ _); simpl;
      [intros s' [= <-]; repeat apply extends_cons; apply extends_refl|].
    unfold scp_run. destruct (select _ _ _); simpl.
    + destruct (verbose ret); repeat apply extends_cons;
        apply extends_app; repeat apply extends_cons; apply extends_refl.
    + destruct (verbose ret); repeat apply extends_cons;
        apply extends_app; repeat apply extends_cons; apply extends_refl.
    + intros s' [= <-]. repeat apply extends_cons; apply extends_refl.
Qed.

Lemma attempt_of_evolves key c ret s :
  match attempt_of W c ret s with
  | inl r => forall s', final r = Some s' -> evolves key s s'
  | inr (s', _, _) => evolves key s s'
  end.
Proof.
  pose proof (attempt_of_extends c ret s) as X.
  pose proof (attempt_of_cfg W c ret s) as F.
  destruct (attempt_of W c ret s) as [r|[[s1 o] e]].
  - intros s' H. apply evolves_same_sh; auto.
  - apply evolves_same_sh; auto.
Qed.

Lemma after_attempt_evolves fuel again key ret out err s s' :
  (forall s1 s2, sh_cfg (sh s1) = sh_cfg (sh s) ->
                 final (again s1) = Some s2 -> evolves key s1 s2) ->
  final (after_attempt W fuel again key ret out err s) = Some s' ->
  evolves key s s'.
Proof.
  intros Ha. unfold after_attempt, finish.
  destruct err as [e|]; simpl; [|intros [= <-]; apply evolves_forget].
  destruct (_ =? 0); simpl.
  { intros [= <-]. apply evolves_same_sh; [reflexivity|apply extends_cons, extends_refl]. }
  assert (E0 : evolves key s
            (emit (EvWarn "retrying") (emit (EvWarn "command failed") s)))
    by (apply evolves_same_sh; [reflexivity|repeat apply extends_cons; apply extends_refl]).
  match goal with |- context [Close ?s0] =>
    pose proof (Close_evolves key s0) as C; destruct (Close s0) as [[] s2|s2|s2|] end;
    simpl in *; try discriminate;
    try (intros [= <-]; eapply evolves_trans; [exact E0|apply C; reflexivity]).
  assert (E2 : evolves key s s2)
    by (eapply evolves_trans; [exact E0|apply C; reflexivity]).
  clear C E0.
  pose proof (reconnect_evolves fuel key s2) as R.
  destruct (reconnect W fuel key s2) as [[] s3|s3|s3|]; simpl in *; try discriminate;
    try (intros [= <-]; eapply evolves_trans; [exact E2|apply R; reflexivity]).
  assert (E3 : evolves key s (emit (EvSleep (retryInterval ret)) s3)).
  { eapply evolves_trans; [exact E2|]. eapply evolves_trans; [apply R; reflexivity|].
    apply evolves_same_sh; [reflexivity|apply extends_cons, extends_refl]. }
  clear R E2.
  match goal with |- context [again ?s0] =>
    pose proof (Ha s0) as A; destruct (again s0) as [[o2 [e2|]] s4|s4|s4|] end;
    simpl in *; try discriminate; intros [= <-];
    specialize (A _ (proj1 (proj2 E3)) eq_refl);
    try (eapply evolves_trans; [exact E3|exact A]).
  eapply evolves_trans; [exact E3|].
  eapply evolves_trans; [exact A|apply evolves_forget].
Qed.

(** A call grows the history, keeps the configuration, and touches the
    ledger at its own key only. *)
Lemma call_evolves fuel c ret s s' :
  final (call W fuel c ret s) = Some s' -> evolves (key_of s c) s s'.
Proof.
  revert s s'. induction fuel as [|fuel IH]; intros s s';
    [rewrite call_O; discriminate|].
  rewrite call_S. intros H.
  pose proof (attempt_of_evolves (key_of s c) c ret
                (seed (key_of s c) (retries ret) s)) as A.
  pose proof (evolves_seed (key_of s c) (retries ret) s) as E.
  destruct (attempt_of W c ret _) as [r|[[s1 o] e]].
  - eapply evolves_trans; [exact E|exact (A s' H)].
  - eapply evolves_trans; [exact E|]. eapply evolves_trans; [exact A|].
    refine (after_attempt_evolves fuel _ _ _ _ _ _ _ _ H).
    intros s2 s3 Hc H23. specialize (IH s2 s3 H23).
    rewrite (key_of_cfg c s s2) in IH; [exact IH|].
    rewrite Hc. destruct A as (_ & A2 & _). rewrite A2. apply seed_cfg.
Qed.

End Evolution.

(** ** Connects, closes and attempts, counted *)

Lemma int_wrap_minus a b : int_wrap (int_wrap a - b) = int_wrap (a - b).
Proof.
  unfold int_wrap. f_equal.
  replace ((a + 2 ^ 63) mod 2 ^ 64 - 2 ^ 63 - b + 2 ^ 63)
    with ((a + 2 ^ 63) mod 2 ^ 64 - b) by lia.
  rewrite Zminus_mod_idemp_l. f_equal. lia.
Qed.

Lemma int_wrap_small z : - 2 ^ 63 <= z < 2 ^ 63 -> int_wrap z = z.
Proof.
  intros H. unfold int_wrap. rewrite Z.mod_small by lia. lia.
Qed.

Section Counting.

Variable W : World.

Lemma dial_loop_count p n err s :
  (forall a l r, p (EvDial a l r) = false) ->
  (forall m, p (EvWarn m) = false) ->
  (forall d, p (EvSleep d) = false) ->
  count p (trace (fst (dial_loop W n err s))) = count p (trace s).
Proof.
  intros P1 P2 P3. revert err s. induction n as [|n IH]; intros err s; [reflexivity|].
  rewrite dial_loop_S.
  destruct (sh_ctx (sh s)) as [life|]; [|reflexivity].
  destruct (lifetime_done W (trace s) life); [reflexivity|].
  destruct (dial_context W (trace s) (addr s)) as [e|]; simpl; [|rewrite P1; reflexivity].
  rewrite IH. simpl. rewrite P3, count_app. simpl. rewrite P1.
  destruct e as [| | |[|] ?| | |]; simpl; rewrite ?P2; reflexivity.
Qed.

(** A call of [Connect] is one more connect in the history, and neither a
    close nor an attempt. *)
Lemma Connect_counts s s' :
  final (Connect W s) = Some s' ->
  connects (trace s') = S (connects (trace s))
  /\ closes (trace s') = closes (trace s)
  /\ attempts (trace s') = attempts (trace s).
Proof.
  unfold Connect, connects, closes, attempts.
  destruct (read_file W _ _) as [bytes|cause]; simpl;
    [|intros [= <-]; simpl; auto].
  destruct (parse_private_key W _ _) as [cause|]; simpl;
    [intros [= <-]; simpl; auto|].
  match goal with |- context [dial_loop W 15 None ?s0] =>
    pose proof (dial_loop_count is_connect 15 None s0
                  ltac:(reflexivity) ltac:(reflexivity) ltac:(reflexivity)) as D1;
    pose proof (dial_loop_count is_close 15 None s0
                  ltac:(reflexivity) ltac:(reflexivity) ltac:(reflexivity)) as D2;
    pose proof (dial_loop_count is_attempt 15 None s0
                  ltac:(reflexivity) ltac:(reflexivity) ltac:(reflexivity)) as D3;
    destruct (dial_loop W 15 None s0) as [s1 ex] end.
  simpl in D1, D2, D3.
  destruct ex as [| |[e|]]; simpl; try (intros [= <-]; auto).
  destruct (sh_conn (sh s1)) as [c|]; simpl; [|intros [= <-]; simpl; auto].
  destruct (new_client_conn W _ c) as [e|]; simpl.
  - destruct (os_stat W _ _); simpl; intros [= <-]; simpl; auto.
  - intros [= <-]; simpl; auto.
Qed.

Lemma Close_counts s u s' :
  Close s = Ret u s' ->
  connects (trace s') = connects (trace s)
  /\ attempts (trace s') = attempts (trace s)
  /\ closes (trace s') = S (S (closes (trace s))).
Proof.
  intros H. apply Close_Ret in H. destruct H as (id & c & _ & _ & ->).
  unfold connects, attempts, closes. simpl. auto.
Qed.

(** The reconnect loop, when it returns: it made [k] calls of [Connect], at
    least one, and took [k] off the ledger entry of [key]. *)
Lemma reconnect_accounting fuel key s s' :
  reconnect W fuel key s = Ret tt s' ->
  exists k,
    (1 <= k <= fuel)%nat
    /\ connects (trace s') = (connects (trace s) + k)%nat
    /\ closes (trace s') = closes (trace s)
    /\ attempts (trace s') = attempts (trace s)
    /\ ledger s' key = int_wrap (ledger s key - Z.of_nat k).
Proof.
  revert s. induction fuel as [|fuel IH]; intros s; simpl; [discriminate|].
  pose proof (Connect_counts (decrement key s)) as C.
  pose proof (Connect_frame W (decrement key s) _ eq_refl) as F.
  destruct (Connect W (decrement key s)) as [[e|] s1|s1|s1|]; simpl in *;
    try discriminate.
  - intros H. destruct (IH _ H) as (k & K1 & K2 & K3 & K4 & K5).
    destruct (C s1 eq_refl) as (C1 & C2 & C3). destruct (F s1 eq_refl) as (F1 & _).
    exists (S k). split; [lia|]. split; [lia|]. split; [congruence|].
    split; [congruence|].
    rewrite K5. unfold ledger at 1. rewrite F1, lookup_insert_eq. simpl.
    rewrite int_wrap_minus. f_equal. lia.
  - intros [= <-]. destruct (C s1 eq_refl) as (C1 & C2 & C3).
    destruct (F s1 eq_refl) as (F1 & _).
    exists 1%nat. split; [lia|]. split; [lia|]. split; [exact C2|].
    split; [exact C3|].
    unfold ledger at 1. rewrite F1, lookup_insert_eq. reflexivity.
Qed.

End Counting.

(** ** Fuel *)

Section Fuel.

Variable W : World.

(** More fuel does not change a loop or a call that ended. *)
Lemma reconnect_fuel_mono fuel m key s :
  reconnect W fuel key s <> OutOfFuel ->
  reconnect W (fuel + m) key s = reconnect W fuel key s.
Proof.
  revert s. induction fuel as [|fuel IH]; intros s; simpl; [congruence|].
  destruct (Connect W (decrement key s)) as [[e|] s1|s1|s1|]; auto.
Qed.

Lemma after_attempt_fuel_mono fuel m again1 again2 key ret out err s :
  (forall s1, again2 s1 <> OutOfFuel -> again1 s1 = again2 s1) ->
  after_attempt W fuel again2 key ret out err s <> OutOfFuel ->
  after_attempt W (fuel + m) again1 key ret out err s
  = after_attempt W fuel again2 key ret out err s.
Proof.
  intros Ha. unfold after_attempt. destruct err as [e|]; [|reflexivity].
  destruct (_ =? 0); [reflexivity|].
  destruct (Close _) as [[] s2|s2|s2|]; try reflexivity.
  intros H.
  assert (R : reconnect W fuel key s2 <> OutOfFuel)
    by (intros R; rewrite R in H; congruence).
  rewrite (reconnect_fuel_mono fuel m key s2 R).
  destruct (reconnect W fuel key s2) as [[] s3|s3|s3|]; try reflexivity.
  rewrite Ha; [reflexivity|]. intros A. rewrite A in H. congruence.
Qed.

Lemma call_fuel_mono fuel m c ret s :
  call W fuel c ret s <> OutOfFuel ->
  call W (fuel + m) c ret s = call W fuel c ret s.
Proof.
  revert s. induction fuel as [|fuel IH]; intros s;
    [rewrite call_O; congruence|].
  change (S fuel + m)%nat with (S (fuel + m)). rewrite !call_S.
  destruct (attempt_of W c ret _) as [r|[[s1 o] e]]; [reflexivity|].
  apply after_attempt_fuel_mono. intros s2. apply IH.
Qed.

Lemma reconnect_first_try fuel key s s1 :
  Connect W (decrement key s) = Ret None s1 ->
  reconnect W (S fuel) key s = Ret tt s1.
Proof. intros H. simpl. rewrite H. reflexivity. Qed.

Lemma Close_final_counts s s' :
  final (Close s) = Some s' ->
  connects (trace s') = connects (trace s)
  /\ attempts (trace s') = attempts (trace s).
Proof.
  unfold Close, connects, attempts.
  destruct (sh_cancel (sh s)) as [id|]; simpl; [|intros [= <-]; auto].
  destruct (sh_conn (sh s)) as [c|]; simpl; intros [= <-]; simpl; auto.
Qed.

Lemma Close_cases s :
  (exists s', Close s = Ret tt s') \/ (exists s', Close s = Panic s').
Proof.
  unfold Close. destruct (sh_cancel (sh s)); [|eauto].
  simpl. destruct (sh_conn (sh s)); eauto.
Qed.

End Fuel.

(** ** Retries within the budget *)

Section Bounded.

Variable W : World.

(** Every [Connect] succeeds. *)
Hypothesis reachable : forall s0, exists s1, Connect W s0 = Ret None s1.

Lemma retries_bounded_core c ret n :
  forall s,
    ledger (seed (key_of s c) (retries ret) s) (key_of s c) = Z.of_nat n ->
    Z.of_nat n < 2 ^ 63 ->
    call W (S n) c ret s <> OutOfFuel
    /\ forall s', final (call W (S n) c ret s) = Some s' ->
         (attempts (trace s') <= attempts (trace s) + S n)%nat
         /\ (connects (trace s') <= connects (trace s) + n)%nat.
Proof.
  induction n as [|n IH]; intros s L B.
  { destruct (call_no_budget W 0 c ret s L) as (_ & N & F).
    split; [exact N|]. intros s' H. destruct (F s' H) as (F1 & _ & F3 & _). lia. }
  rewrite call_S.
  pose proof (attempt_of_frame W c ret (seed (key_of s c) (retries ret) s)) as F.
  destruct (attempt_of W c ret _) as [r|[[s1 o] err]] eqn:A; simpl in F.
  { apply attempt_of_inl in A. split; [destruct r; simpl in A; congruence|].
    intros s' H. destruct (F s' H) as (_ & F2 & _ & F4). rewrite seed_trace in *. lia. }
  destruct F as (F1 & F2 & _ & F4). rewrite seed_trace in *.
  assert (L1 : ledger s1 (key_of s c) = Z.of_nat (S n))
    by (unfold ledger in *; rewrite F1; exact L).
  unfold after_attempt. destruct err as [e|].
  2:{ unfold finish. split; [discriminate|]. intros s' [= <-]. simpl. lia. }
  change (ledger (emit (EvWarn "command failed") s1) (key_of s c))
    with (ledger s1 (key_of s c)).
  rewrite L1. destruct (Z.eqb_spec (Z.of_nat (S n)) 0) as [Z0|_]; [lia|].
  match goal with |- context [Close ?s0] =>
    pose proof (Close_final_counts s0) as CC; pose proof (Close_final s0) as CS;
    destruct (Close_cases s0) as [[s2 Cl]|[s2 Cl]]; rewrite Cl in *
  end; simpl in CC, CS; destruct (CC _ eq_refl) as [CC1 CC2].
  2:{ split; [discriminate|]. intros s' [= <-].
      unfold connects, attempts in *. simpl in *. lia. }
  clear Cl. specialize (CS _ eq_refl).
  destruct (reachable (decrement (key_of s c) s2)) as [s3 Hc].
  rewrite (reconnect_first_try W n _ _ _ Hc).
  destruct (Connect_counts W _ s3 ltac:(rewrite Hc; reflexivity)) as (K1 & _ & K3).
  destruct (Connect_frame W _ _ Hc s3 eq_refl) as (R1 & R2).
  simpl in K1, K3, R1, R2.
  set (s4 := emit (EvSleep (retryInterval ret)) s3).
  assert (Cf : sh_cfg (sh s4) = sh_cfg (sh s))
    by (simpl; rewrite R2, CS; simpl; rewrite F1; apply seed_cfg).
  assert (Ky : key_of s4 c = key_of s c) by (apply key_of_cfg; exact Cf).
  assert (Lk : sh_retries (sh s4) !! key_of s c
               = Some (int_wrap (ledger s2 (key_of s c) - 1)))
    by (simpl; rewrite R1; apply lookup_insert_eq).
  assert (L2 : ledger s2 (key_of s c) = Z.of_nat (S n))
    by (unfold ledger in *; rewrite CS; exact L1).
  assert (L4 : ledger (seed (key_of s4 c) (retries ret) s4) (key_of s4 c) = Z.of_nat n).
  { rewrite Ky, seed_present by (rewrite Lk; eauto).
    unfold ledger. rewrite Lk. simpl. rewrite L2.
    rewrite int_wrap_small by lia. lia. }
  destruct (IH s4 L4 ltac:(lia)) as [N Bd].
  assert (T4 : attempts (trace s4) = attempts (trace s1)
               /\ connects (trace s4) = S (connects (trace s1))).
  { unfold s4, attempts, connects in *. simpl in *. split; congruence. }
  destruct T4 as [T4a T4c].
  destruct (call W (S n) c ret s4) as [[o2 e2] s5|s5|s5|]; [| | |congruence].
  - unfold finish. destruct (Bd s5 eq_refl) as [B1 B2].
    destruct e2; (split; [discriminate|]); intros s' [= <-]; simpl; lia.
  - split; [discriminate|]. intros s' [= <-]. destruct (Bd s5 eq_refl). lia.
  - split; [discriminate|]. intros s' [= <-]. destruct (Bd s5 eq_refl). lia.
Qed.

End Bounded.

(** X6. When every [Connect] succeeds and the ledger, once seeded, holds a
    budget [n >= 0] for the key of a call, the call ends after at most [n]
    retries: it starts at most [n + 1] commands (or runs of the tool) and
    makes at most [n] calls of [Connect]; fuel beyond [n + 1] changes
    nothing. *)
Theorem retries_bounded W n c ret s :
  (forall s0, exists s1, Connect W s0 = Ret None s1) ->
  ledger (seed (key_of s c) (retries ret) s) (key_of s c) = Z.of_nat n ->
  Z.of_nat n < 2 ^ 63 ->
  call W (S n) c ret s <> OutOfFuel
  /\ (forall m, call W (S n + m) c ret s = call W (S n) c ret s)
  /\ forall s', final (call W (S n) c ret s) = Some s' ->
       (attempts (trace s') <= attempts (trace s) + S n)%nat
       /\ (connects (trace s') <= connects (trace s) + n)%nat.
Proof.
  intros Hr L B. destruct (retries_bounded_core W Hr c ret n s L B) as [N Bd].
  split; [exact N|]. split; [|exact Bd].
  intros m. apply call_fuel_mono. exact N.
Qed.

(** Worlds in which [Connect] always succeeds at its first dial: the key
    loads and parses, nobody cancels the lifetime from outside, and the dial
    and the handshake succeed. *)
Definition always_connects (W : World) : Prop :=
  (forall tr p, exists b, read_file W tr p = inl b)
  /\ (forall tr b, parse_private_key W tr b = None)
  /\ (forall tr l, lifetime_done W tr l = false)
  /\ (forall tr a, dial_context W tr a = None)
  /\ (forall tr c, new_client_conn W tr c = None).

Lemma always_connects_Connect W :
  always_connects W -> forall s0, exists s1, Connect W s0 = Ret None s1.
Proof.
  intros (H1 & H2 & H3 & H4 & H5) s0. unfold Connect.
  match goal with |- context [read_file W ?tr ?p] => destruct (H1 tr p) as [b ->] end.
  cbn [emit upd trace sh]. rewrite H2. rewrite dial_loop_S.
  cbn [emit upd trace sh set_signer set_key set_lifetime sh_ctx].
  rewrite H3, H4. cbn [emit upd trace sh set_conn sh_conn]. rewrite H5. eauto.
Qed.

Lemma always_fails_connects : always_connects Examples.always_fails.
Proof. repeat split; intros; simpl; eauto. Qed.

Lemma retries_bounded_witness :
  Run Examples.always_fails 3 "ls" (Examples.op_retries 2) Examples.connected
  <> OutOfFuel
  /\ (forall m,
        Run Examples.always_fails (3 + m) "ls" (Examples.op_retries 2) Examples.connected
        = Run Examples.always_fails 3 "ls" (Examples.op_retries 2) Examples.connected)
  /\ forall s',
       final (Run Examples.always_fails 3 "ls" (Examples.op_retries 2)
                Examples.connected) = Some s' ->
       (attempts (trace s') <= attempts (trace Examples.connected) + 3)%nat
       /\ (connects (trace s') <= connects (trace Examples.connected) + 2)%nat.
Proof.
  apply (retries_bounded Examples.always_fails 2 (RunCmd "ls") (Examples.op_retries 2)
           Examples.connected
           (always_connects_Connect _ always_fails_connects)).
  - vm_compute. reflexivity.
  - reflexivity.
Defined.

(** With a budget of 2 and a command that always fails, the command is
    started three times and the error is returned; the entry, now 0, is left
    in the ledger. *)
Example Run_gives_up_after_two_retries :
  exists s',
    Run Examples.always_fails 3 "ls" (Examples.op_retries 2) Examples.connected
    = Ret (None, Some (Other "EOF")) s'
    /\ attempts (trace s') = 3%nat
    /\ sh_retries (sh s') !! "hostls" = Some 0.
Proof. eexists. split; [vm_compute; reflexivity|]. split; vm_compute; reflexivity. Qed.

(** ** The reconnect loop has no bound *)

(** A loop or a call that never ends, whatever the fuel. *)
Definition diverges {A : Type} (f : nat -> Res A) : Prop :=
  forall fuel, f fuel = OutOfFuel.

(** Worlds in which [Connect] never succeeds because every dial fails (the
    key loads and parses, and nobody cancels the lifetime from outside). *)
Definition never_dials (W : World) : Prop :=
  (forall tr p, exists b, read_file W tr p = inl b)
  /\ (forall tr b, parse_private_key W tr b = None)
  /\ (forall tr l, lifetime_done W tr l = false)
  /\ (forall tr a, exists e, dial_context W tr a = Some e).

Lemma never_dials_loop W n err s :
  never_dials W -> is_Some (sh_ctx (sh s)) -> is_Some err ->
  exists e, snd (dial_loop W n err s) = DialDone (Some e).
Proof.
  intros (_ & _ & H3 & H4). revert err s.
  induction n as [|n IH]; intros err s [life Hl] [e0 ->]; [simpl; eauto|].
  rewrite dial_loop_S, Hl, H3. destruct (H4 (trace s) (addr s)) as [e ->].
  apply IH; simpl; eauto.
Qed.

Lemma never_dials_Connect W :
  never_dials W -> forall s0, exists e s1, Connect W s0 = Ret (Some e) s1.
Proof.
  intros H s0. pose proof H as (H1 & H2 & H3 & H4). unfold Connect.
  match goal with |- context [read_file W ?tr ?p] => destruct (H1 tr p) as [b ->] end.
  cbn [emit upd trace sh]. rewrite H2. rewrite dial_loop_S.
  cbn [emit upd trace sh set_signer set_key set_lifetime sh_ctx].
  rewrite H3. match goal with |- context [dial_context W ?tr ?a] =>
    destruct (H4 tr a) as [e ->] end.
  match goal with |- context [dial_loop W 14 ?err ?s] =>
    destruct (never_dials_loop W 14 err s H) as [e' He'];
      [simpl; eauto|eauto|];
    destruct (dial_loop W 14 err s) as [s1 ex] end.
  simpl in He'. subst ex. eauto.
Qed.

Section Unbounded.

Variable W : World.

(** Every [Connect] returns an error. *)
Hypothesis unreachable : forall s0, exists e s1, Connect W s0 = Ret (Some e) s1.

Lemma reconnect_diverges key s : diverges (fun fuel => reconnect W fuel key s).
Proof.
  intros fuel. revert s. induction fuel as [|fuel IH]; intros s; [reflexivity|].
  simpl. destruct (unreachable (decrement key s)) as (e & s1 & ->). apply IH.
Qed.

Lemma call_diverges c ret s s1 out e :
  attempt_of W c ret (seed (key_of s c) (retries ret) s) = inr (s1, out, Some e) ->
  ledger (seed (key_of s c) (retries ret) s) (key_of s c) <> 0 ->
  is_Some (sh_cancel (sh s)) -> is_Some (sh_conn (sh s)) ->
  diverges (fun fuel => call W fuel c ret s).
Proof.
  intros A L [id Hi] [cn Hn] fuel. destruct fuel as [|fuel]; [apply call_O|].
  rewrite call_S, A.
  pose proof (attempt_of_cfg W c ret (seed (key_of s c) (retries ret) s)) as F.
  rewrite A in F.
  assert (S1 : sh s1 = sh s \/ exists m, sh s1 = set_retries m (sh s)).
  { rewrite F. unfold seed. destruct (_ !! _); simpl; eauto. }
  assert (Hi1 : sh_cancel (sh s1) = Some id)
    by (destruct S1 as [->|[m ->]]; exact Hi).
  assert (Hn1 : sh_conn (sh s1) = Some cn)
    by (destruct S1 as [->|[m ->]]; exact Hn).
  unfold after_attempt.
  change (ledger (emit (EvWarn "command failed") s1) (key_of s c))
    with (ledger s1 (key_of s c)).
  assert (L1 : ledger s1 (key_of s c) <> 0) by (unfold ledger in *; rewrite F; exact L).
  destruct (Z.eqb_spec (ledger s1 (key_of s c)) 0) as [Z0|_]; [contradiction|].
  unfold Close. cbn [emit sh trace]. rewrite Hi1, Hn1.
  rewrite reconnect_diverges. reflexivity.
Qed.

End Unbounded.

(** X7. The reconnect loop of the retry protocol has no bound of its own:
    when no [Connect] succeeds the loop never ends, and a [Run], [Send] or
    [Download] call whose attempt failed while the ledger held a nonzero
    budget never returns. *)
Theorem reconnect_unbounded W :
  (forall s0, exists e s1, Connect W s0 = Ret (Some e) s1) ->
  (forall key s, diverges (fun fuel => reconnect W fuel key s))
  /\ (forall c ret s s1 out e,
        attempt_of W c ret (seed (key_of s c) (retries ret) s) = inr (s1, out, Some e) ->
        ledger (seed (key_of s c) (retries ret) s) (key_of s c) <> 0 ->
        is_Some (sh_cancel (sh s)) -> is_Some (sh_conn (sh s)) ->
        diverges (fun fuel => call W fuel c ret s)).
Proof.
  intros H. split.
  - intros key s. apply reconnect_diverges. exact H.
  - intros c ret s s1 out e. apply call_diverges. exact H.
Qed.

Module Unreachable.

(** The host went away after the first [Connect]: every dial is refused,
    and commands on the old connection fail. *)
Definition world : World :=
  Examples.with_dial (fun _ _ => Some (OpError true "connect: connection refused"))
    Examples.always_fails.

Lemma world_never_dials : never_dials world.
Proof. repeat split; intros; simpl; eauto. Qed.

End Unreachable.

Lemma reconnect_unbounded_witness :
  diverges (fun fuel =>
    Run Unreachable.world fuel "ls" (Examples.op_retries 1) Examples.connected).
Proof.
  refine (proj2 (reconnect_unbounded Unreachable.world
                   (never_dials_Connect _ Unreachable.world_never_dials))
            (RunCmd "ls") (Examples.op_retries 1) Examples.connected _ _ _ _ _ _ _).
  - vm_compute. reflexivity.
  - vm_compute. discriminate.
  - vm_compute. eauto.
  - vm_compute. eauto.
Defined.

(** ** The budget is spent per [Connect] *)

(** X8. The reconnect loop takes one off the ledger entry for every call of
    [Connect] it makes, failed ones included, not one per retry: when it
    returns after [k] calls the entry is the old one minus [k] (in 64-bit
    arithmetic).  So a loop that needs more calls than the budget left
    carries the entry below zero, where the test [sh.retries[key] != 0] no
    longer stops the retries. *)
Theorem reconnect_spends_per_Connect W fuel key s s' :
  reconnect W fuel key s = Ret tt s' ->
  exists k,
    (1 <= k)%nat
    /\ connects (trace s') = (connects (trace s) + k)%nat
    /\ ledger s' key = int_wrap (ledger s key - Z.of_nat k)
    /\ (0 <= ledger s key < Z.of_nat k -> Z.of_nat k <= 2 ^ 63 ->
        ledger s' key < 0).
Proof.
  intros H. destruct (reconnect_accounting W fuel key s s' H)
    as (k & K1 & K2 & _ & _ & K5).
  exists k. split; [lia|]. split; [exact K2|]. split; [exact K5|].
  intros R B. rewrite K5, int_wrap_small; lia.
Qed.

Module Flaky.

(** The first handshake after the first connection is rejected, the next
    ones succeed; the first [n] commands fail. *)
Definition world (n : nat) : World :=
  Examples.with_handshake
    (fun tr _ => if Nat.eqb (count is_handshake tr) 1
                 then Some (Other "ssh: handshake failed") else None)
    (Examples.fail_first n).

(** The client when the retry protocol starts to reconnect: a budget of 1
    for the command, and the connection closed. *)
Definition closed : State :=
  match Close (seed "hostls" 1 Examples.connected) with
  | Ret _ s => s
  | _ => Examples.connected
  end.

Definition reconnected : State :=
  match reconnect (world 1) 3 "hostls" closed with
  | Ret _ s => s
  | _ => closed
  end.

End Flaky.

Lemma reconnect_spends_per_Connect_witness :
  exists k,
    (1 <= k)%nat
    /\ connects (trace Flaky.reconnected) = (connects (trace Flaky.closed) + k)%nat
    /\ ledger Flaky.reconnected "hostls"
       = int_wrap (ledger Flaky.closed "hostls" - Z.of_nat k)
    /\ (0 <= ledger Flaky.closed "hostls" < Z.of_nat k -> Z.of_nat k <= 2 ^ 63 ->
        ledger Flaky.reconnected "hostls" < 0).
Proof.
  apply (reconnect_spends_per_Connect (Flaky.world 1) 3 "hostls" Flaky.closed
           Flaky.reconnected).
  vm_compute. reflexivity.
Defined.

(** With a budget of 1, a reconnect that needs two calls of [Connect] leaves
    -1 in the ledger, and a command that fails three times is started four
    times. *)
Example Run_retries_past_budget :
  ledger Flaky.reconnected "hostls" = -1
  /\ exists s',
       Run (Flaky.world 3) 5 "ls" (Examples.op_retries 1) Examples.connected
       = Ret (Some "hi", None) s'
       /\ attempts (trace s') = 4%nat.
Proof.
  split; [vm_compute; reflexivity|].
  eexists. split; [vm_compute; reflexivity|]. vm_compute. reflexivity.
Qed.

(** ** One ledger for all calls *)

(** What the key of a call is made of, besides the DNS name: the command of
    [Run], the local path of [Send] and of [Download]. *)
Definition subject (c : Call) : string :=
  match c with
  | RunCmd cmd => cmd
  | SendFile l _ => l
  | DownloadFile _ l => l
  end.

Lemma key_of_subject s c : key_of s c = PublicDNSName (sh_cfg (sh s)) +:+ subject c.
Proof. destruct c; reflexivity. Qed.

Lemma append_inj_r (a x y : string) : a +:+ x = a +:+ y -> x = y.
Proof. induction a as [|ch a IH]; simpl; [auto|]. intros [= H]. auto. Qed.

(** X9. Two calls on one client have the same retry key exactly when they
    have the same subject, whatever the methods: a [Send] and a [Download] of
    one local path share an entry, and so does a [Run] whose command is that
    path.  An entry left by a call that returned an error therefore decides
    for every later call with that subject, whose own retries are ignored. *)
Theorem ledger_entry_shared W1 W2 f1 f2 c1 c2 ret1 ret2 n s out e s' :
  subject c1 = subject c2 ->
  call W1 f1 c1 ret1 s = Ret (out, Some e) s' ->
  (forall c, key_of s c1 = key_of s c <-> subject c1 = subject c)
  /\ is_Some (sh_retries (sh s') !! key_of s' c2)
  /\ call W2 f2 c2 (with_retries n ret2) s' = call W2 f2 c2 ret2 s'.
Proof.
  intros Hs Hc.
  assert (K : forall c, key_of s c1 = key_of s c <-> subject c1 = subject c).
  { intros c. rewrite !key_of_subject. split; [apply append_inj_r|congruence]. }
  assert (P : is_Some (sh_retries (sh s') !! key_of s' c2)).
  { rewrite (key_of_cfg c2 s s') by exact (call_cfg W1 _ _ _ _ _ _ _ Hc).
    rewrite <- (proj2 (K c2) Hs). exact (error_keeps_entry W1 _ _ _ _ _ _ _ Hc). }
  split; [exact K|]. split; [exact P|]. apply call_with_retries. exact P.
Qed.

Module Transfer.

(** The tool is there but exits with an error. *)
Definition scp_fails : World :=
  {| read_file := read_file Examples.healthy;
     parse_private_key := parse_private_key Examples.healthy;
     lifetime_done := lifetime_done Examples.healthy;
     dial_context := dial_context Examples.healthy;
     new_client_conn := new_client_conn Examples.healthy;
     os_stat := os_stat Examples.healthy;
     new_session := new_session Examples.healthy;
     session_setenv := session_setenv Examples.healthy;
     combined_output := combined_output Examples.healthy;
     look_path := look_path Examples.healthy;
     os_chmod := os_chmod Examples.healthy;
     scp_combined_output := fun _ _ =>
       Examples.ends (Some "lost connection") (Some (Other "exit status 1")) |}.

(** The client after a [Send] of [/tmp/a.txt] without retries that
    failed. *)
Definition sent : State :=
  match Send scp_fails 1 "/tmp/a.txt" "/home/ec2-user/a.txt" (Examples.op_retries 0)
          Examples.connected with
  | Ret _ s => s
  | _ => Examples.connected
  end.

End Transfer.

(** After a failed [Send] of a local path without retries, a [Download] to
    the same local path with 3 retries is not retried. *)
Lemma ledger_entry_shared_witness :
  is_Some (sh_retries (sh Transfer.sent)
             !! key_of Transfer.sent (DownloadFile "/var/log/messages" "/tmp/a.txt"))
  /\ Download Transfer.scp_fails 4 "/var/log/messages" "/tmp/a.txt"
       (with_retries 3 (Examples.op_retries 0)) Transfer.sent
     = Download Transfer.scp_fails 4 "/var/log/messages" "/tmp/a.txt"
         (Examples.op_retries 0) Transfer.sent.
Proof.
  refine (proj2 (ledger_entry_shared Transfer.scp_fails Transfer.scp_fails 1 4
                   (SendFile "/tmp/a.txt" "/home/ec2-user/a.txt")
                   (DownloadFile "/var/log/messages" "/tmp/a.txt")
                   (Examples.op_retries 0) (Examples.op_retries 0) 3
                   Examples.connected (Some "lost connection")
                   (Other "exit status 1") Transfer.sent eq_refl _)).
  vm_compute. reflexivity.
Defined.

Example Download_not_retried_after_Send :
  exists s',
    Download Transfer.scp_fails 4 "/var/log/messages" "/tmp/a.txt"
      (Examples.op_retries 3) Transfer.sent
    = Ret (Some "lost connection", Some (Other "exit status 1")) s'
    /\ attempts (trace s') = S (attempts (trace Transfer.sent))
    /\ connects (trace s') = connects (trace Transfer.sent).
Proof. eexists. split; [vm_compute; reflexivity|]. split; vm_compute; reflexivity. Qed.

(** ** The rest of the ledger *)

(** X10. A [Run], [Send] or [Download] call, however it ends, leaves every
    ledger entry other than the one of its own key as it was, and leaves the
    configuration as it was; the history it found is still there, with the
    new events put before it. *)
Theorem call_keeps_other_entries W fuel c ret s s' :
  final (call W fuel c ret s) = Some s' ->
  (forall k, k <> key_of s c -> sh_retries (sh s') !! k = sh_retries (sh s) !! k)
  /\ sh_cfg (sh s') = sh_cfg (sh s)
  /\ exists new, trace s' = new ++ trace s.
Proof.
  intros H. destruct (call_evolves W fuel c ret s s' H) as (X & C & K). auto.
Qed.

Lemma call_keeps_other_entries_witness :
  exists s',
    Run Examples.always_fails 3 "pwd" (Examples.op_retries 1) left_behind
    = Ret (None, Some (Other "EOF")) s'
    /\ sh_retries (sh s') !! "hostls" = sh_retries (sh left_behind) !! "hostls"
    /\ sh_retries (sh left_behind) !! "hostls" = Some 0.
Proof.
  eexists. split; [vm_compute; reflexivity|]. split; [|vm_compute; reflexivity].
  refine (proj1 (call_keeps_other_entries Examples.always_fails 3 (RunCmd "pwd")
                   (Examples.op_retries 1) left_behind _ _) "hostls" _).
  - vm_compute. reflexivity.
  - vm_compute. discriminate.
Defined.

(** ** Errors before anything is started *)

Section Early.

Variable W : World.

Lemma open_session_inl_out ret s out e s' :
  open_session W ret s = inl (Ret (out, e) s') -> out = None.
Proof.
  unfold open_session. intros H.
  repeat (simpl in H; match type of H with
    | context [match ?x with _ => _ end] => destruct x eqn:?
    end); inversion H; subst; reflexivity.
Qed.

Lemma transfer_attempt_inl_out l args said ret s out e s' :
  transfer_attempt W l args said ret s = inl (Ret (out, e) s') -> out = None.
Proof.
  unfold transfer_attempt. intros H.
  repeat (simpl in H; match type of H with
    | context [match ?x with _ => _ end] => destruct x eqn:?
    end); inversion H; subst; reflexivity.
Qed.

Lemma attempt_of_inl_out c ret s out e s' :
  attempt_of W c ret s = inl (Ret (out, e) s') -> out = None.
Proof.
  destruct c; simpl; [|apply transfer_attempt_inl_out|apply transfer_attempt_inl_out].
  unfold run_attempt. destruct (open_session W ret s) as [r|[s1 c]] eqn:O.
  - intros [= ->]. exact (open_session_inl_out _ _ _ _ _ O).
  - destruct (run_select W cmd c s1) as [[[s2 o] e2]|]; discriminate.
Qed.

Lemma open_session_inr ret s s2 c :
  open_session W ret s = inr (s2, c) ->
  exists life,
    sh_ctx (sh s) = Some life /\ c = derive life (timeout ret)
    /\ sh s2 = sh s /\ attempts (trace s2) = attempts (trace s).
Proof.
  unfold open_session.
  destruct (sh_cli (sh s)) as [cl|]; [|discriminate]. simpl.
  destruct (new_session W (trace s) cl); [discriminate|].
  match goal with |- context [setenv_all W ?kvs ?s0] =>
    pose proof (setenv_all_silent W kvs s0) as F1;
    destruct (setenv_all W kvs s0) as [s1 o1] end.
  simpl in F1. destruct o1; [discriminate|].
  pose proof (setenv_all_silent W (envs ret) s1) as F2.
  destruct (setenv_all W (envs ret) s1) as [s3 o2]. simpl in F2.
  destruct o2; [discriminate|].
  destruct F1 as (A1 & _ & _ & A4), F2 as (B1 & _ & _ & B4).
  destruct (sh_ctx (sh s3)) as [life|] eqn:Hl; [|discriminate].
  intros [= <- <-]. exists life. simpl in *.
  rewrite B1, A1 in Hl. simpl in Hl.
  split; [exact Hl|]. split; [reflexivity|]. split; [congruence|].
  unfold attempts in *. simpl in *. congruence.
Qed.

(** An attempt that started a command or the tool is one more attempt in
    the history. *)
Lemma attempt_of_inr_attempts c ret s s1 out err :
  attempt_of W c ret s = inr (s1, out, err) ->
  attempts (trace s1) = S (attempts (trace s)).
Proof.
  destruct c as [cmd|l r|r l]; simpl.
  - unfold run_attempt. destruct (open_session W ret s) as [r0|[s2 c]] eqn:O;
      [discriminate|].
    apply open_session_inr in O. destruct O as (life & _ & _ & _ & O4).
    destruct (run_select W cmd c s2) as [[[s3 o] e]|] eqn:R; [|discriminate].
    apply run_select_frame in R. destruct R as (_ & _ & _ & R4).
    intros [= <- <- <-]. unfold attempts in *.
    destruct (verbose ret); simpl; congruence.
  - unfold transfer_attempt. destruct (sh_ctx (sh s)); [|discriminate]. simpl.
    destruct (look_path W _ _); [|discriminate]. simpl.
    destruct (os_chmod W _ _); [discriminate|].
    destruct (scp_run W _ _ _) as [[[s3 o] e]|] eqn:R; [|discriminate].
    apply scp_run_frame in R. destruct R as (_ & _ & _ & R4).
    intros [= <- <- <-]. unfold attempts in *. simpl in R4.
    destruct (verbose ret); simpl; congruence.
  - unfold transfer_attempt. destruct (sh_ctx (sh s)); [|discriminate]. simpl.
    destruct (look_path W _ _); [|discriminate]. simpl.
    destruct (os_chmod W _ _); [discriminate|].
    destruct (scp_run W _ _ _) as [[[s3 o] e]|] eqn:R; [|discriminate].
    apply scp_run_frame in R. destruct R as (_ & _ & _ & R4).
    intros [= <- <- <-]. unfold attempts in *. simpl in R4.
    destruct (verbose ret); simpl; congruence.
Qed.

End Early.

(** X11. A retry is always preceded by a started attempt: when a [Run],
    [Send] or [Download] call ends without having started a command or the
    tool (the session could not be opened, an environment variable was
    rejected, the tool was not found, the key file's mode could not be
    changed, or a nil field made it panic), it made no [Close] and no
    [Connect] whatever the retry budget, it left the client as the seeding
    of the ledger left it, and what it returns, if it returns, is nil output
    with an error. *)
Theorem no_retry_without_attempt W fuel c ret s s' :
  final (call W fuel c ret s) = Some s' ->
  attempts (trace s') = attempts (trace s) ->
  connects (trace s') = connects (trace s)
  /\ closes (trace s') = closes (trace s)
  /\ sh s' = sh (seed (key_of s c) (retries ret) s)
  /\ forall out e, returned (call W fuel c ret s) = Some (out, e) ->
       out = None /\ e <> None.
Proof.
  destruct fuel as [|fuel]; [rewrite call_O; discriminate|].
  rewrite call_S.
  pose proof (attempt_of_frame W c ret (seed (key_of s c) (retries ret) s)) as F.
  destruct (attempt_of W c ret _) as [r|[[s1 o] err]] eqn:A; simpl in F.
  - intros H _. destruct (F s' H) as (F1 & F2 & F3 & _). rewrite seed_trace in *.
    repeat split; auto.
    + destruct r as [[o e0] s0| | |]; try discriminate. simpl in H0.
      injection H0 as -> ->. exact (attempt_of_inl_out W _ _ _ _ _ _ A).
    + apply attempt_of_inl in A. destruct r as [[o e0] s0| | |]; try discriminate.
      simpl in H0. injection H0 as -> ->. destruct e; [discriminate|contradiction].
  - intros H E. exfalso.
    apply attempt_of_inr_attempts in A. rewrite seed_trace in A.
    assert (X : evolves (key_of s c) s1 s').
    { refine (after_attempt_evolves W fuel _ _ _ _ _ _ _ _ H).
      intros s2 s3 Hc H23. pose proof (call_evolves W _ _ _ _ _ H23) as K.
      rewrite (key_of_cfg c s s2) in K; [exact K|].
      rewrite Hc. destruct F as (F1 & _). rewrite F1. apply seed_cfg. }
    destruct X as (X & _). apply (extends_count is_attempt) in X.
    unfold attempts in *. lia.
Qed.

Module Session.

(** No session can be opened on the connection. *)
Definition refused : World :=
  {| read_file := read_file Examples.healthy;
     parse_private_key := parse_private_key Examples.healthy;
     lifetime_done := lifetime_done Examples.healthy;
     dial_context := dial_context Examples.healthy;
     new_client_conn := new_client_conn Examples.healthy;
     os_stat := os_stat Examples.healthy;
     new_session := fun _ _ => Some (Other "ssh: rejected: administratively prohibited");
     session_setenv := session_setenv Examples.healthy;
     combined_output := combined_output Examples.healthy;
     look_path := look_path Examples.healthy;
     os_chmod := os_chmod Examples.healthy;
     scp_combined_output := scp_combined_output Examples.healthy |}.

End Session.

(** A [Run] with 5 retries on a connection that refuses sessions returns the
    error at once. *)
Lemma no_retry_without_attempt_witness :
  exists s',
    Run Session.refused 6 "ls" (Examples.op_retries 5) Examples.connected
    = Ret (None, Some (Other "ssh: rejected: administratively prohibited")) s'
    /\ connects (trace s') = connects (trace Examples.connected)
    /\ closes (trace s') = closes (trace Examples.connected)
    /\ sh_retries (sh s') !! "hostls" = Some 5.
Proof.
  eexists. split; [vm_compute; reflexivity|].
  pose proof (no_retry_without_attempt Session.refused 6 (RunCmd "ls")
                (Examples.op_retries 5) Examples.connected _
                ltac:(vm_compute; reflexivity) ltac:(vm_compute; reflexivity))
    as (H1 & H2 & H3 & _).
  split; [exact H1|]. split; [exact H2|]. rewrite H3. vm_compute. reflexivity.
Defined.

(** ** The preconditions of a transfer *)

Definition is_transfer (c : Call) : Prop :=
  match c with
  | RunCmd _ => False
  | SendFile _ _ | DownloadFile _ _ => True
  end.

(** X12. [Send] and [Download] look the tool up and then change the mode of
    the key file before every run of the tool.  When the lookup fails, or
    when it succeeds and the change of mode is rejected, the call returns
    that error with nil output at once: the tool is not run, and nothing is
    retried whatever the budget (the history ends with the cancellation of
    the call's context, right after the step that failed). *)
Theorem transfer_precondition_fails W fuel c ret s life :
  is_transfer c ->
  sh_ctx (sh s) = Some life ->
  let s0 := emit (EvContext (derive life (timeout ret)))
              (seed (key_of s c) (retries ret) s) in
  let path := KeyPath (sh_cfg (sh s)) in
  (forall e,
     look_path W (trace s0) "scp" = inr e ->
     call W (S fuel) c ret s
     = Ret (None, Some e) (emit EvCtxCancel (emit (EvLookPath "scp") s0)))
  /\ (forall p e,
        look_path W (trace s0) "scp" = inl p ->
        os_chmod W (EvLookPath "scp" :: trace s0) path = Some e ->
        call W (S fuel) c ret s
        = Ret (None, Some e)
            (emit EvCtxCancel (emit (EvChmod path) (emit (EvLookPath "scp") s0)))).
Proof.
  intros Ht Hc s0 path. split.
  - intros e Hl. cbn [s0 emit trace] in Hl. rewrite seed_trace in Hl.
    destruct c as [cmd|l r|r l]; [destruct Ht| |];
      cbn [call Send Download]; unfold transfer_attempt;
      rewrite seed_ctx, Hc; cbn [emit trace sh]; rewrite seed_trace, Hl; reflexivity.
  - intros p e Hl Hm. cbn [s0 emit trace] in Hl, Hm. rewrite seed_trace in Hl, Hm.
    unfold path in Hm.
    destruct c as [cmd|l r|r l]; [destruct Ht| |];
      cbn [call Send Download]; unfold transfer_attempt;
      rewrite seed_ctx, Hc; cbn [emit trace sh]; rewrite seed_trace, Hl;
      cbn [emit trace sh]; rewrite !seed_cfg, Hm; reflexivity.
Qed.

Module KeyFile.

(** The mode of the key file cannot be changed. *)
Definition read_only : World :=
  {| read_file := read_file Examples.healthy;
     parse_private_key := parse_private_key Examples.healthy;
     lifetime_done := lifetime_done Examples.healthy;
     dial_context := dial_context Examples.healthy;
     new_client_conn := new_client_conn Examples.healthy;
     os_stat := os_stat Examples.healthy;
     new_session := new_session Examples.healthy;
     session_setenv := session_setenv Examples.healthy;
     combined_output := combined_output Examples.healthy;
     look_path := look_path Examples.healthy;
     os_chmod := fun _ _ => Some (Other "chmod: operation not permitted");
     scp_combined_output := scp_combined_output Examples.healthy |}.

End KeyFile.

Lemma transfer_precondition_fails_witness :
  exists s',
    Download KeyFile.read_only 4 "/var/log/messages" "/tmp/m.txt"
      (Examples.op_retries 3) Examples.connected
    = Ret (None, Some (Other "chmod: operation not permitted")) s'
    /\ attempts (trace s') = attempts (trace Examples.connected)
    /\ connects (trace s') = connects (trace Examples.connected).
Proof.
  eexists. split.
  - refine (proj2 (transfer_precondition_fails KeyFile.read_only 3
                     (DownloadFile "/var/log/messages" "/tmp/m.txt")
                     (Examples.op_retries 3) Examples.connected 0%nat I _)
              "/usr/bin/scp" (Other "chmod: operation not permitted") _ _);
      vm_compute; reflexivity.
  - split; vm_compute; reflexivity.
Defined.

(** ** [Run] after [Close] *)

Lemma cancelled_In id tr : In (EvCancel id) tr -> cancelled id tr = true.
Proof.
  intros H. unfold cancelled. apply existsb_exists.
  exists (EvCancel id). split; [exact H|]. apply Nat.eqb_refl.
Qed.

(** X13. [Close] cancels the lifetime and clears nothing, so a [Run] made
    after [Close] without a new [Connect] still opens a session on the old
    handle; when it can, and the command does not end at once, the call's
    context is already done: the command is started, the session is closed
    right away and the attempt ends with nil output and [Canceled].  With no
    budget in the ledger that is what [Run] returns. *)
Theorem Run_after_Close W fuel cmd ret s s1 id s2 c :
  sh_ctx (sh s) = Some id -> sh_cancel (sh s) = Some id ->
  Close s = Ret tt s1 ->
  0 <= timeout ret ->
  open_session W ret (seed (run_key s1 cmd) (retries ret) s1) = inr (s2, c) ->
  (forall d, task_after (combined_output W (trace s2) cmd) = Some d -> 0 < d) ->
  let s3 := emits [EvAwaitTask; EvCtxCancel; EvSessionClose; EvBlocked 0]
              (emit (EvExec cmd) s2) in
  let s4 := if verbose ret then emit (EvInfo "ran command") s3 else s3 in
  sh s1 = sh s
  /\ run_select W cmd c s2 = Some (s3, None, Some Canceled)
  /\ (ledger (seed (run_key s1 cmd) (retries ret) s1) (run_key s1 cmd) = 0 ->
      Run W (S fuel) cmd ret s1
      = Ret (None, Some Canceled) (emit (EvWarn "command failed") s4)).
Proof.
  intros Hx Hk Hc Ht Ho Hd s3 s4.
  pose proof (Close_final s s1 ltac:(rewrite Hc; reflexivity)) as E1.
  apply Close_Ret in Hc. destruct Hc as (id' & cn & Hk' & _ & T1).
  rewrite Hk in Hk'. injection Hk' as <-.
  pose proof (open_session_extends W ret (seed (run_key s1 cmd) (retries ret) s1)) as X.
  pose proof Ho as Ho'. apply open_session_inr in Ho'.
  destruct Ho' as (life & Hl & -> & E2 & _). rewrite Ho in X.
  rewrite seed_ctx, E1, Hx in Hl. injection Hl as <-.
  assert (Cn : cancelled id (trace s2) = true).
  { apply cancelled_In. apply (extends_In _ _ _ X).
    rewrite seed_trace, T1. simpl. auto. }
  assert (Hs : run_select W cmd (derive id (timeout ret)) s2 = Some (s3, None, Some Canceled)).
  { unfold run_select, lifetime_ends.
    replace (parent_of (derive id (timeout ret))) with id
      by (unfold derive; destruct (timeout ret =? 0); reflexivity).
    rewrite Cn.
    assert (D : done_at (derive id (timeout ret)) (Some 0) = Some (0, Canceled)).
    { unfold done_at, derive. destruct (Z.eqb_spec (timeout ret) 0); simpl; [reflexivity|].
      destruct (Z.leb_spec 0 (timeout ret)); [reflexivity|lia]. }
    rewrite D. unfold select.
    destruct (task_after (combined_output W (trace s2) cmd)) as [d|] eqn:Td;
      [|reflexivity].
    specialize (Hd d eq_refl). destruct (Z.ltb_spec 0 d); [reflexivity|lia]. }
  split; [exact E1|]. split; [exact Hs|].
  intros L. cbn [Run]. unfold run_attempt. fold (run_key s1 cmd). rewrite Ho, Hs.
  apply after_attempt_no_budget.
  unfold ledger in *. fold s3. fold s4.
  replace (sh s4) with (sh (seed (run_key s1 cmd) (retries ret) s1)); [exact L|].
  unfold s4, s3. destruct (verbose ret); simpl; rewrite E2; reflexivity.
Qed.

Module Closed.

(** Commands take a second. *)
Definition slow : World :=
  Examples.with_command
    (fun _ _ => {| task_after := Some Second; task_out := Some "hi"; task_err := None;
                   life_after := None; tie_ctx_first := false;
                   killed_out := None; killed_err := Other "signal: killed" |})
    Examples.healthy.

Definition closed : State :=
  match Close Examples.connected with
  | Ret _ s => s
  | _ => Examples.connected
  end.

End Closed.

Lemma Run_after_Close_witness :
  exists s',
    Run Closed.slow 1 "echo hi" (Examples.op_retries 0) Closed.closed
    = Ret (None, Some Canceled) s'.
Proof.
  eexists.
  refine (proj2 (proj2 (Run_after_Close Closed.slow 0 "echo hi" (Examples.op_retries 0)
                          Examples.connected Closed.closed 0%nat _ _
                          eq_refl eq_refl _ _ _ _)) _).
  - vm_compute. reflexivity.
  - vm_compute. discriminate.
  - vm_compute. reflexivity.
  - intros d. vm_compute. intros [= <-]. reflexivity.
  - vm_compute. reflexivity.
Defined.

(** ** What [Connect] replaces *)

(** X14. Whatever it returns, [Connect] starts by putting a new lifetime in
    the client: afterwards [sh.ctx] and [sh.cancel] belong to one and the
    same new context.  It never closes the connection it found nor cancels
    the lifetime it found, and it leaves the ledger and the configuration
    alone. *)
Theorem Connect_replaces_lifetime W s s' :
  final (Connect W s) = Some s' ->
  sh_ctx (sh s') = Some (length (trace s))
  /\ sh_cancel (sh s') = Some (length (trace s))
  /\ In (EvNewLifetime (length (trace s))) (trace s')
  /\ closes (trace s') = closes (trace s)
  /\ connects (trace s') = S (connects (trace s))
  /\ sh_retries (sh s') = sh_retries (sh s)
  /\ sh_cfg (sh s') = sh_cfg (sh s).
Proof.
  intros H. destruct (Connect_counts W s s' H) as (C1 & C2 & _).
  destruct (Connect_frame W s _ eq_refl s' H) as (F1 & F2).
  assert (G : sh_ctx (sh s') = Some (length (trace s))
              /\ sh_cancel (sh s') = Some (length (trace s))
              /\ In (EvNewLifetime (length (trace s))) (trace s')).
  { revert H. unfold Connect.
    destruct (read_file W _ _) as [bytes|cause]; simpl;
      [|intros [= <-]; simpl; auto].
    destruct (parse_private_key W _ _) as [cause|]; simpl;
      [intros [= <-]; simpl; auto 6|].
    match goal with |- context [dial_loop W 15 None ?s0] =>
      pose proof (dial_loop_frame W 15 None s0) as D;
      destruct (dial_loop_spec W 15 None s0) as (newd & T & _);
      destruct (dial_loop W 15 None s0) as [s1 ex] end.
    simpl in D, T. destruct D as (_ & _ & _ & D4 & D5).
    assert (I1 : In (EvNewLifetime (length (trace s))) (trace s1))
      by (rewrite T; apply in_or_app; right; simpl; auto 6).
    destruct ex as [| |[e|]]; simpl; try (intros [= <-]; auto).
    destruct (sh_conn (sh s1)) as [c|]; simpl; [|intros [= <-]; simpl; auto].
    destruct (new_client_conn W _ c) as [e|]; simpl.
    - destruct (os_stat W _ _); simpl; intros [= <-]; simpl; auto 7.
    - intros [= <-]; simpl; auto 6. }
  destruct G as (G1 & G2 & G3). auto 8.
Qed.

(** A second [Connect] on a connected client: a new lifetime, one more
    connect, and no close. *)
Lemma Connect_replaces_lifetime_witness :
  exists s',
    Connect Examples.healthy Examples.connected = Ret None s'
    /\ sh_ctx (sh s') = Some (length (trace Examples.connected))
    /\ closes (trace s') = closes (trace Examples.connected)
    /\ sh_conn (sh s') <> sh_conn (sh Examples.connected).
Proof.
  eexists. split; [vm_compute; reflexivity|].
  pose proof (Connect_replaces_lifetime Examples.healthy Examples.connected _
                ltac:(vm_compute; reflexivity)) as (H1 & _ & _ & H4 & _).
  split; [exact H1|]. split; [exact H4|]. vm_compute. discriminate.
Defined.

(** ** The environment of a command *)



Section Environment.

Variable W : World.


End Environment.


Module Env.

Definition cfg : Config :=
  {| KeyPath := "/tmp/test.key"; PublicIP := "10.0.0.1"; PublicDNSName := "host";
     UserName := "ec2-user"; Envs := [("GOPATH", "/home/ec2-user/go")] |}.

Definition connected : State :=
  match Connect Examples.healthy (New cfg) with
  | Ret _ s => s
  | _ => New cfg
  end.

Definition op : Op :=
  {| verbose := true; retries := 0; retryInterval := 0; timeout := 0;
     envs := [("GOPATH", "/tmp/go"); ("CGO_ENABLED", "0")] |}.

End Env.

(** The call's [GOPATH] is set after the client's. *)
Example Run_environment_order_example :
  exists s2 c,
    open_session Examples.healthy Env.op Env.connected = inr (s2, c)
    /\ trace s2
       = EvContext c
         :: [EvSetenv "CGO_ENABLED" "0"; EvSetenv "GOPATH" "/tmp/go";
             EvSetenv "GOPATH" "/home/ec2-user/go"]
         ++ EvInfo "created client session, running command"
         :: EvNewSession 4 :: trace Env.connected.
Proof. eexists. eexists. split; vm_compute; reflexivity. Qed.

(** ** [Close] after a [Connect] that failed *)

Section CloseAfterConnect.

Variable W : World.

Lemma dial_loop_conn_none n err s :
  sh_conn (sh s) = None ->
  snd (dial_loop W n err s) <> DialDone None \/ (n = O /\ err = None) ->
  sh_conn (sh (fst (dial_loop W n err s))) = None.
Proof.
  revert err s. induction n as [|n IH]; intros err s Hn H; [exact Hn|].
  revert H. rewrite dial_loop_S.
  destruct (sh_ctx (sh s)) as [life|]; [|intros _; exact Hn].
  destruct (lifetime_done W (trace s) life); [intros _; exact Hn|].
  destruct (dial_context W (trace s) (addr s)) as [e|].
  - intros H. apply IH; [reflexivity|].
    destruct H as [H|[[=] _]]. left. exact H.
  - simpl. intros [H|[[=] _]]. congruence.
Qed.

End CloseAfterConnect.

(** X16. On a client fresh from [New], a [Connect] that returns an error
    before any dial succeeded (the key could not be read or parsed, the
    lifetime was cancelled, or all dials failed) leaves [sh.conn] nil, and
    the [Close] that follows cancels the new lifetime and then panics on the
    nil connection.  Only when the error is that of the handshake is a
    connection stored, and [Close] returns. *)
Theorem Close_after_failed_Connect W cfg e s' :
  Connect W (New cfg) = Ret (Some e) s' ->
  (sh_conn (sh s') = None
   /\ Close s' = Panic (emit (EvCancel 0) s')
   /\ forall c h, ~ In (EvHandshake c h) (trace s'))
  \/ (exists c, sh_conn (sh s') = Some c
                /\ In (EvHandshake c (Some e)) (trace s')
                /\ exists s'', Close s' = Ret tt s'').
Proof.
  unfold Connect. cbn [New trace sh sh_cfg length emit upd].
  destruct (read_file W _ _) as [bytes|cause]; cbn [emit upd trace sh].
  2:{ intros [= <- <-]. left. cbn. repeat split; auto.
      intros c h [[=]|[[=]|[]]]. }
  destruct (parse_private_key W _ _) as [cause|]; cbn [emit upd trace sh].
  1:{ intros [= <- <-]. left. cbn. repeat split; auto.
      intros c h [[=]|[[=]|[[=]|[]]]]. }
  match goal with |- context [dial_loop W 15 None ?s0] =>
    pose proof (dial_loop_frame W 15 None s0) as D;
    pose proof (dial_loop_conn_none W 15 None s0 eq_refl) as Dn;
    destruct (dial_loop_spec W 15 None s0) as (newd & T & _ & _ & Hs & _);
    destruct (dial_loop W 15 None s0) as [s1 ex] end.
  cbn [fst snd] in D, Dn, T. destruct D as (_ & _ & _ & _ & D5).
  cbn in D5, T.
  assert (NoH : forall c h, ~ In (EvHandshake c h) (trace s1)).
  { intros c h Hin. rewrite T in Hin. apply in_app_or in Hin.
    destruct Hin as [Hin|Hin]; [exact (Hs _ _ Hin)|].
    simpl in Hin. repeat (destruct Hin as [Hin|Hin]; [discriminate|]). exact Hin. }
  destruct ex as [| |[e1|]]; cbn [emit upd trace sh]; try discriminate.
  - intros [= <- <-]. left.
    assert (Cn : sh_conn (sh s1) = None) by (apply Dn; left; discriminate).
    unfold Close. rewrite D5. cbn [emit sh]. rewrite Cn. auto.
  - intros [= <- <-]. left.
    assert (Cn : sh_conn (sh s1) = None) by (apply Dn; left; discriminate).
    unfold Close. rewrite D5. cbn [emit sh]. rewrite Cn. auto.
  - destruct (sh_conn (sh s1)) as [c|] eqn:Cn; [|discriminate].
    destruct (new_client_conn W _ c) as [e1|]; [|discriminate].
    cbn [emit upd trace sh].
    destruct (os_stat W _ _); [|discriminate].
    intros [= <- <-]. right. exists c. cbn.
    split; [exact Cn|]. split; [auto|].
    unfold Close. cbn [emit upd sh]. rewrite D5. cbn [emit sh]. rewrite Cn. eauto.
Qed.

Lemma Close_after_failed_Connect_witness :
  exists s',
    Connect (Examples.refuse_first 15) (New Examples.cfg0)
    = Ret (Some (OpError true "connect: connection refused")) s'
    /\ Close s' = Panic (emit (EvCancel 0) s').
Proof.
  eexists. split; [vm_compute; reflexivity|].
  destruct (Close_after_failed_Connect (Examples.refuse_first 15) Examples.cfg0
              (OpError true "connect: connection refused") _
              ltac:(vm_compute; reflexivity)) as [(_ & H & _)|(c & H & _)].
  - exact H.
  - vm_compute in H. discriminate.
Defined.

(** ** Transfers on a client that was never connected *)

(** X17. On a client fresh from [New], [Send] and [Download] do not return
    an error either: they seed the ledger with the requested retries, derive
    the context of the call from the nil [sh.ctx], and panic there, before
    the tool is looked up. *)
Theorem transfer_before_Connect_panics W fuel cfg l r ret :
  let seeded c := seed (key_of (New cfg) c) (retries ret) (New cfg) in
  Send W (S fuel) l r ret (New cfg) = Panic (seeded (SendFile l r))
  /\ Download W (S fuel) r l ret (New cfg) = Panic (seeded (DownloadFile r l))
  /\ sh_retries (sh (seeded (SendFile l r))) !! transfer_key (New cfg) l
     = Some (retries ret)
  /\ trace (seeded (SendFile l r)) = [].
Proof.
  intros seeded. split; [reflexivity|]. split; [reflexivity|]. split.
  - unfold seeded. rewrite seed_lookup. reflexivity.
  - unfold seeded. rewrite seed_trace. reflexivity.
Qed.
